(** * Edge transport: the isolated promise buffer and the fetch adapter

    A shallow embedding of [IsolatedPromiseBuffer] and of the [makeRequest]
    of [makeEdgeTransport].

    - JavaScript objects used as records of optional fields ([RequestInit],
      the header objects) are finite maps from property names to values;
      the object spread [{ ...a, ...b }] is the right-biased union.
    - A promise is represented by its settlement state; the producers'
      futures, the timers and the promises returned by [drain] live in an
      explicit [World], and the event loop is a labelled step relation:
      synchronous calls ([add], [drain]), microtasks (promise reactions) and
      macrotasks (network settlements, timers, the passing of time).
    - Numbers ([_bufferSize], [timeout], [status]) are integers. *)

From stdpp Require Import gmap strings list fin_maps.
From Stdlib Require Import ZArith Lia Ascii.

Local Open Scope Z_scope.

(** ** JavaScript values and objects *)

Module Js.

(** The values that the fields of a [RequestInit] hold here: [undefined],
    strings ([method], [referrerPolicy], [body], ...) and plain string
    records ([headers]). *)
Inductive value : Type :=
| Undefined
| Str (s : string)
| Obj (fields : gmap string string).

(** An optional property read: [o.p] is [undefined] when [p] is absent. *)
Definition of_optional (o : option (gmap string string)) : value :=
  match o with
  | Some fields => Obj fields
  | None => Undefined
  end.

(** [{ ...base, ...overlay }]: every own property of [overlay] is copied
    over [base], a property bound to [undefined] included; spreading
    [undefined] copies nothing. *)
Definition spread (base : gmap string value)
    (overlay : option (gmap string value)) : gmap string value :=
  match overlay with
  | Some o => o ∪ base
  | None => base
  end.

End Js.

(** ** The Fetch API's [Headers] and [Response] *)

Module Headers.

(** A header list: names with their values, in order of arrival. *)
Definition t : Type := list (string * string).

Definition lower_ascii (c : ascii) : ascii :=
  let n := nat_of_ascii c in
  if (Nat.leb 65 n && Nat.leb n 90)%bool then ascii_of_nat (n + 32) else c.

Fixpoint lower (s : string) : string :=
  match s with
  | EmptyString => EmptyString
  | String c rest => String (lower_ascii c) (lower rest)
  end.

(** Header names match without regard to ASCII case. *)
Definition same_name (a b : string) : bool :=
  String.eqb (lower a) (lower b).

Definition values (name : string) (h : t) : list string :=
  map snd (List.filter (fun kv => same_name name (fst kv)) h).

(** [headers.get(name)]: [null] when no header has that name, otherwise
    the values of the headers of that name, joined by a comma and a
    space. *)
Definition get (name : string) (h : t) : option string :=
  match values name h with
  | [] => None
  | vs => Some (String.concat ", " vs)
  end.

End Headers.

Module Response.
Record t : Type := mk { status : Z; headers : Headers.t }.
End Response.

(** ** Transport types *)

Module TransportRequest.
Record t : Type := mk { body : string }.
End TransportRequest.

Module TransportMakeRequestResponse.
(** [headers] binds a header name to a string or to [null] ([None]); a
    name that is not a key of the object is not in the map. *)
Record t : Type := mk {
  statusCode : Z;
  headers : gmap string (option string)
}.
End TransportMakeRequestResponse.

Module EdgeTransportOptions.
(** The optional fields are [None] when the caller leaves them out. *)
Record t : Type := mk {
  url : string;
  headers : option (gmap string string);
  fetchOptions : option (gmap string Js.value);
  bufferSize : option Z
}.
End EdgeTransportOptions.

(** ** Promises

    A promise is observed through its settlement state. Reactions are
    functions from the state of the promise they are attached to, to the
    state of the promise they return; callbacks here do not throw. *)

Inductive Reason : Type :=
| SentryError (message : string)
| NetworkFailure (message : string).

Inductive Settlement (A : Type) : Type :=
| Pending
| Fulfilled (value : A)
| Rejected (reason : Reason).

Arguments Pending {A}.
Arguments Fulfilled {A} value.
Arguments Rejected {A} reason.

Definition is_settled {A} (p : Settlement A) : bool :=
  match p with
  | Pending => false
  | _ => true
  end.

Definition is_fulfilled {A} (p : Settlement A) : bool :=
  match p with
  | Fulfilled _ => true
  | _ => false
  end.

Module Promise.

(** [Promise.resolve(v)] and [Promise.reject(e)]. *)
Definition resolve {A} (v : A) : Settlement A := Fulfilled v.
Definition reject {A} (e : Reason) : Settlement A := Rejected e.

(** [p.then(onFulfilled, onRejected)]: the returned promise is fulfilled
    with the result of whichever callback runs. *)
Definition then_ {A B} (onFulfilled : A → B) (onRejected : Reason → B)
    (p : Settlement A) : Settlement B :=
  match p with
  | Pending => Pending
  | Fulfilled v => Fulfilled (onFulfilled v)
  | Rejected e => Fulfilled (onRejected e)
  end.

(** [p.then(null, onRejected)]: a fulfilment passes through; the result is
    the value of [p] or what [onRejected] returns. *)
Definition then_null {A B} (onRejected : Reason → B) (p : Settlement A)
    : Settlement (A + B) :=
  then_ inl (fun e => inr (onRejected e)) p.

(** [p.then(onFulfilled)]: a rejection passes through. *)
Definition then_only {A B} (onFulfilled : A → B) (p : Settlement A)
    : Settlement B :=
  match p with
  | Pending => Pending
  | Fulfilled v => Fulfilled (onFulfilled v)
  | Rejected e => Rejected e
  end.

(** [Promise.all(ps)]: rejected as soon as one element is, fulfilled with
    all the values once every element is fulfilled. (Of several rejected
    elements the one listed first stands for the one that rejected first.) *)
Fixpoint all {A} (ps : list (Settlement A)) : Settlement (list A) :=
  match ps with
  | [] => Fulfilled []
  | p :: rest =>
      match p, all rest with
      | Rejected e, _ => Rejected e
      | _, Rejected e => Rejected e
      | Fulfilled v, Fulfilled vs => Fulfilled (v :: vs)
      | _, _ => Pending
      end
  end.

End Promise.

(** ** [makeRequest] *)

Module Fetch.
(** One call [fetch(url, init)]. *)
Record call : Type := mk { url : string; init : gmap string Js.value }.
End Fetch.

(** The object literal of [makeRequest] before the spread of
    [options.fetchOptions]. *)
Definition requestDefaults (options : EdgeTransportOptions.t)
    (request : TransportRequest.t) : gmap string Js.value :=
  <["body" := Js.Str (TransportRequest.body request)]>
  (<["method" := Js.Str "POST"]>
  (<["referrerPolicy" := Js.Str "origin"]>
  (<["headers" := Js.of_optional (EdgeTransportOptions.headers options)]> ∅))).

Definition requestOptions (options : EdgeTransportOptions.t)
    (request : TransportRequest.t) : gmap string Js.value :=
  Js.spread (requestDefaults options request)
            (EdgeTransportOptions.fetchOptions options).

(** The callback given to [.then] on the promise of [fetch]. *)
Definition onResponse (response : Response.t) : TransportMakeRequestResponse.t :=
  {| TransportMakeRequestResponse.statusCode := Response.status response;
     TransportMakeRequestResponse.headers :=
       <["x-sentry-rate-limits" :=
           Headers.get "X-Sentry-Rate-Limits" (Response.headers response)]>
       (<["retry-after" :=
           Headers.get "Retry-After" (Response.headers response)]> ∅) |}.

(** [makeRequest(request)]: the call to [fetch] it issues, and the promise
    it returns, [fetch(...).then(response => ...)], as a function of the
    state of the promise of [fetch]. *)
Definition makeRequest (options : EdgeTransportOptions.t)
    (request : TransportRequest.t)
    : Fetch.call *
      (Settlement Response.t → Settlement TransportMakeRequestResponse.t) :=
  ({| Fetch.url := EdgeTransportOptions.url options;
      Fetch.init := requestOptions options request |},
   Promise.then_only onResponse).

(** ** [IsolatedPromiseBuffer] *)

(** A task producer is a closure [() => PromiseLike<...>]; the buffer never
    looks inside it, so it is known by a name. As its type says, a call
    returns a promise: a new future, settled later by the network (see
    [World]). A producer that throws before it returns, or that calls back
    into the buffer, is outside this model. *)
Definition TaskProducer : Type := string.

Definition DEFAULT_TRANSPORT_BUFFER_SIZE : Z := 30.

Definition BUFFER_FULL_MESSAGE : string :=
  "Not adding Promise because buffer limit was reached.".

Module IsolatedPromiseBuffer.

(** [dollar] is the public field [$]. *)
Record t : Type := mk {
  dollar : list (Settlement TransportMakeRequestResponse.t);
  _taskProducers : list TaskProducer;
  _bufferSize : Z
}.

(** [constructor(_bufferSize = DEFAULT_TRANSPORT_BUFFER_SIZE)]: [None] is a
    call without the argument. *)
Definition new (bufferSize : option Z) : t :=
  {| dollar := [];
     _taskProducers := [];
     _bufferSize := default DEFAULT_TRANSPORT_BUFFER_SIZE bufferSize |}.

(** [add(taskProducer)]: the buffer after the call and the promise
    returned. *)
Definition add (taskProducer : TaskProducer) (this : t) : t * Settlement unit :=
  if Z.of_nat (length (_taskProducers this)) >=? _bufferSize this
  then (this, Promise.reject (SentryError BUFFER_FULL_MESSAGE))
  else ({| dollar := dollar this;
           _taskProducers := _taskProducers this ++ [taskProducer];
           _bufferSize := _bufferSize this |},
        Promise.resolve tt).

(** [this._taskProducers = []]. *)
Definition reset_taskProducers (this : t) : t :=
  {| dollar := dollar this;
     _taskProducers := [];
     _bufferSize := _bufferSize this |}.

(** Successive calls of [add]. *)
Fixpoint add_all (taskProducers : list TaskProducer) (this : t)
    : t * list (Settlement unit) :=
  match taskProducers with
  | [] => (this, [])
  | tp :: rest =>
      let '(this1, r) := add tp this in
      let '(this2, rs) := add_all rest this1 in
      (this2, r :: rs)
  end.

End IsolatedPromiseBuffer.

(** [makeEdgeTransport(options)] hands [makeRequest] and a new buffer of
    capacity [options.bufferSize] to [createTransport]. *)
Definition makeEdgeTransport (options : EdgeTransportOptions.t)
    : (TransportRequest.t →
       Fetch.call *
       (Settlement Response.t → Settlement TransportMakeRequestResponse.t)) *
      IsolatedPromiseBuffer.t :=
  (makeRequest options,
   IsolatedPromiseBuffer.new (EdgeTransportOptions.bufferSize options)).

(** ** The world around a buffer: futures, timers, drains in flight *)

(** A timer set by [setTimeout]. *)
Inductive Timer : Type :=
| Armed (deadline : Z)
| Fired
| Cleared.

(** What one call of [drain] leaves behind: the variables its closures
    captured and the promise it returned.
    - [oldTaskProducers], [timeout] and [timer] are the variables of the
      source;
    - [started] numbers the futures returned by [taskProducer()], in the
      order of the [map];
    - [reacted] tells whether the reaction attached to [Promise.all(...)]
      has run;
    - [promise] is the state of the promise returned to the caller. *)
Record Drain : Type := mkDrain {
  oldTaskProducers : list TaskProducer;
  timeout : option Z;
  timer : Timer;
  started : list nat;
  reacted : bool;
  promise : Settlement bool
}.

(** - [invoked] records the calls [taskProducer()], oldest first;
    - [futures !! k] is the future returned by the k-th of these calls;
    - [drains !! i] belongs to the i-th call of [drain];
    - [now] is the clock, in milliseconds. *)
Record World : Type := mkWorld {
  buffer : IsolatedPromiseBuffer.t;
  invoked : list TaskProducer;
  futures : list (Settlement TransportMakeRequestResponse.t);
  drains : list Drain;
  now : Z
}.

Definition init (bufferSize : option Z) : World :=
  {| buffer := IsolatedPromiseBuffer.new bufferSize;
     invoked := [];
     futures := [];
     drains := [];
     now := 0 |}.

Definition set_buffer (b : IsolatedPromiseBuffer.t) (w : World) : World :=
  {| buffer := b; invoked := invoked w; futures := futures w;
     drains := drains w; now := now w |}.

Definition set_futures (fs : list (Settlement TransportMakeRequestResponse.t))
    (w : World) : World :=
  {| buffer := buffer w; invoked := invoked w; futures := fs;
     drains := drains w; now := now w |}.

Definition set_drains (ds : list Drain) (w : World) : World :=
  {| buffer := buffer w; invoked := invoked w; futures := futures w;
     drains := ds; now := now w |}.

Definition set_now (t : Z) (w : World) : World :=
  {| buffer := buffer w; invoked := invoked w; futures := futures w;
     drains := drains w; now := t |}.

(** The state of future [k]. *)
Definition future (w : World) (k : nat)
    : Settlement TransportMakeRequestResponse.t :=
  default Pending (futures w !! k).

(** [taskProducer()]: the call is recorded and returns a new, pending
    future. *)
Definition invoke (taskProducer : TaskProducer) (w : World) : World * nat :=
  ({| buffer := buffer w;
      invoked := invoked w ++ [taskProducer];
      futures := futures w ++ [Pending];
      drains := drains w;
      now := now w |},
   List.length (futures w)).

(** [oldTaskProducers.map(taskProducer => taskProducer()...)]: the producers
    are called one after the other, in the order of the array. *)
Fixpoint invoke_all (taskProducers : list TaskProducer) (w : World)
    : World * list nat :=
  match taskProducers with
  | [] => (w, [])
  | tp :: rest =>
      let '(w1, k) := invoke tp w in
      let '(w2, ks) := invoke_all rest w1 in
      (w2, k :: ks)
  end.

(** [setTimeout(callback, timeout)]: a missing or negative delay counts as
    zero. *)
Definition setTimeout (timeout : option Z) (w : World) : Timer :=
  Armed (now w + Z.max 0 (default 0 timeout)).

(** [clearTimeout(timer)]. *)
Definition clearTimeout (t : Timer) : Timer :=
  match t with
  | Armed _ => Cleared
  | _ => t
  end.

(** The test [timeout && timeout > 0]. *)
Definition positive_timeout (timeout : option Z) : bool :=
  match timeout with
  | Some t => negb (t =? 0) && (0 <? t)
  | None => false
  end.

(** The [resolve] function of [new Promise(resolve => ...)]: only the first
    call has an effect. *)
Definition resolve (value : bool) (d : Drain) : Drain :=
  match promise d with
  | Pending =>
      {| oldTaskProducers := oldTaskProducers d; timeout := timeout d;
         timer := timer d; started := started d; reacted := reacted d;
         promise := Fulfilled value |}
  | _ => d
  end.

(** The callback of the timer:
    [if (timeout && timeout > 0) { resolve(false); }]. *)
Definition onTimeout (d : Drain) : Drain :=
  let d1 :=
    {| oldTaskProducers := oldTaskProducers d; timeout := timeout d;
       timer := Fired; started := started d; reacted := reacted d;
       promise := promise d |} in
  if positive_timeout (timeout d1) then resolve false d1 else d1.

(** The reaction attached to [Promise.all(...)]:
    [clearTimeout(timer); resolve(true);]. *)
Definition onAllSettled (d : Drain) : Drain :=
  resolve true
    {| oldTaskProducers := oldTaskProducers d; timeout := timeout d;
       timer := clearTimeout (timer d); started := started d;
       reacted := true; promise := promise d |}.

(** [taskProducer().then(null, () => {})]: [inr tt] is the [undefined] that
    the empty handler returns. *)
Definition caught (p : Settlement TransportMakeRequestResponse.t)
    : Settlement (TransportMakeRequestResponse.t + unit) :=
  Promise.then_null (fun _ => tt) p.

(** The promise [Promise.all(oldTaskProducers.map(...))] of a drain. *)
Definition aggregate (w : World) (d : Drain)
    : Settlement (list (TransportMakeRequestResponse.t + unit)) :=
  Promise.all (map (fun k => caught (future w k)) (started d)).

(** [drain(timeout)]: the world when the call returns, and the number of
    the drain, which stands for the promise returned. *)
Definition drain (timeout : option Z) (w : World) : World * nat :=
  let oldTaskProducers := IsolatedPromiseBuffer._taskProducers (buffer w) in
  let w1 := set_buffer (IsolatedPromiseBuffer.reset_taskProducers (buffer w)) w in
  let timer := setTimeout timeout w1 in
  let '(w2, started) := invoke_all oldTaskProducers w1 in
  (set_drains
     (drains w2 ++
      [{| oldTaskProducers := oldTaskProducers; timeout := timeout;
          timer := timer; started := started; reacted := false;
          promise := Pending |}]) w2,
   List.length (drains w2)).

(** [add(taskProducer)] on the buffer of the world. *)
Definition add (taskProducer : TaskProducer) (w : World)
    : World * Settlement unit :=
  let '(b, r) := IsolatedPromiseBuffer.add taskProducer (buffer w) in
  (set_buffer b w, r).

(** ** The event loop *)

(** The reaction of a drain is a pending microtask when its aggregate
    promise is fulfilled and the reaction has not run yet. *)
Definition ready (w : World) (d : Drain) : bool :=
  negb (reacted d) && is_fulfilled (aggregate w d).

(** No microtask is pending. *)
Definition quiescent (w : World) : bool :=
  forallb (fun d => negb (ready w d)) (drains w).

(** Every future started by the drain has settled. *)
Definition all_settled (w : World) (d : Drain) : bool :=
  forallb (fun k => is_settled (future w k)) (started d).

Inductive Event : Type :=
| CallAdd (taskProducer : TaskProducer)
| CallDrain (timeout : option Z)
| Reaction (i : nat)
| Settle (k : nat) (outcome : Settlement TransportMakeRequestResponse.t)
| TimerFires (i : nat)
| Tick (ms : Z).

(** One step of the event loop; [None] when the event cannot happen.
    - [CallAdd], [CallDrain]: synchronous calls, possible at any point;
    - [Reaction i]: the microtask of drain [i];
    - [Settle k outcome]: the network settles the pending future [k];
    - [TimerFires i]: the armed timer of drain [i] fires, its deadline passed;
    - [Tick ms]: time passes.
    The last three are macrotasks: they start only when no microtask is
    pending. *)
Definition exec (e : Event) (w : World) : option World :=
  match e with
  | CallAdd taskProducer => Some (fst (add taskProducer w))
  | CallDrain timeout => Some (fst (drain timeout w))
  | Reaction i =>
      match drains w !! i with
      | Some d =>
          if ready w d
          then Some (set_drains (<[i := onAllSettled d]> (drains w)) w)
          else None
      | None => None
      end
  | Settle k outcome =>
      if quiescent w && is_settled outcome then
        match futures w !! k with
        | Some Pending => Some (set_futures (<[k := outcome]> (futures w)) w)
        | _ => None
        end
      else None
  | TimerFires i =>
      if quiescent w then
        match drains w !! i with
        | Some d =>
            match timer d with
            | Armed deadline =>
                if deadline <=? now w
                then Some (set_drains (<[i := onTimeout d]> (drains w)) w)
                else None
            | _ => None
            end
        | None => None
        end
      else None
  | Tick ms =>
      if quiescent w && (0 <? ms) then Some (set_now (now w + ms) w) else None
  end.

(** A sequence of events, from left to right. *)
Fixpoint run (es : list Event) (w : World) : option World :=
  match es with
  | [] => Some w
  | e :: rest =>
      match exec e w with
      | Some w1 => run rest w1
      | None => None
      end
  end.

(** The worlds a buffer created with [bufferSize] can be in. *)
Inductive reachable (bufferSize : option Z) : World → Prop :=
| reachable_init : reachable bufferSize (init bufferSize)
| reachable_step w e w1 :
    reachable bufferSize w → exec e w = Some w1 → reachable bufferSize w1.

(** ** The specification's reading of two operations *)

(** The headers the specification describes for the outbound request: the
    fixed headers [H] merged entry by entry with the headers of the overlay
    [F], the overlay's entries winning. *)
Definition spec_merged_headers (H : gmap string string)
    (F : gmap string Js.value) : Js.value :=
  match F !! "headers" with
  | Some (Js.Obj fh) => Js.Obj (fh ∪ H)
  | _ => Js.Obj H
  end.

(** The outbound request as the specification words it, for fixed headers
    [H] and an overlay [F]: method, referrer policy and body are fixed, and
    the headers are [H] merged with the headers of [F]. *)
Definition spec_outbound_request (url : string) (H : gmap string string)
    (F : gmap string Js.value) (request : TransportRequest.t) : Prop :=
  let init :=
    requestOptions (EdgeTransportOptions.mk url (Some H) (Some F) None)
                   request in
  init !! "method" = Some (Js.Str "POST") ∧
  init !! "referrerPolicy" = Some (Js.Str "origin") ∧
  init !! "body" = Some (Js.Str (TransportRequest.body request)) ∧
  init !! "headers" = Some (spec_merged_headers H F).

(** The promise of a drain as the specification words it, whatever the
    timeout: never rejected, and fulfilled with [true] once every detached
    producer has settled and no reaction is pending. *)
Definition spec_drain_resolves_true (bufferSize : option Z) : Prop :=
  ∀ w i d,
    reachable bufferSize w → drains w !! i = Some d →
    (∀ e, promise d ≠ Rejected e) ∧
    (all_settled w d = true → quiescent w = true →
     promise d = Fulfilled true).

(** The timer of the drain fired and its callback resolved the promise. *)
Definition timed_out (d : Drain) : bool :=
  match timer d with
  | Fired => positive_timeout (timeout d)
  | _ => false
  end.

(** The capacity of a buffer created with [bufferSize]. *)
Definition capacity (bufferSize : option Z) : Z :=
  default DEFAULT_TRANSPORT_BUFFER_SIZE bufferSize.

(** The producers waiting in the buffer of a world. *)
Definition pending (w : World) : list TaskProducer :=
  IsolatedPromiseBuffer._taskProducers (buffer w).

(** Sample values used in the examples below. *)
Definition sample_response : TransportMakeRequestResponse.t :=
  onResponse (Response.mk 200 [("X-Sentry-Rate-Limits", "60:key")]).

Definition sample_failure : Settlement TransportMakeRequestResponse.t :=
  Rejected (NetworkFailure "connection reset").

(** ** Invariants of the event loop *)

(** What holds of a drain in flight, in every world that can be reached:
    its futures exist; its promise is never rejected; the reaction runs only
    once all its futures have settled, resolves the promise and leaves no
    armed timer; [true] comes from the reaction only and [false] from the
    timer of a positive timeout only; only the reaction clears the timer. *)
Record drain_ok (w : World) (d : Drain) : Prop := mk_drain_ok {
  ok_started : Forall (fun k => (k < List.length (futures w))%nat) (started d);
  ok_not_rejected : ∀ e, promise d ≠ Rejected e;
  ok_reacted_settled : reacted d = true → all_settled w d = true;
  ok_reacted_resolved : reacted d = true → promise d ≠ Pending;
  ok_true_reacted : promise d = Fulfilled true → reacted d = true;
  ok_false_timed_out : promise d = Fulfilled false ↔ timed_out d = true;
  ok_reacted_timer : reacted d = true → ∀ deadline, timer d ≠ Armed deadline;
  ok_cleared_reacted : timer d = Cleared → reacted d = true
}.

Record world_ok (bufferSize : option Z) (w : World) : Prop := mk_world_ok {
  ok_dollar : IsolatedPromiseBuffer.dollar (buffer w) = [];
  ok_size : IsolatedPromiseBuffer._bufferSize (buffer w) = capacity bufferSize;
  ok_bound : Z.of_nat (List.length (pending w)) ≤ Z.max 0 (capacity bufferSize);
  ok_log : List.length (invoked w) = List.length (futures w);
  ok_drains : Forall (drain_ok w) (drains w)
}.

(** [w1] continues [w]: the futures and calls of [w] are still there, and
    what had settled is still settled. *)
Record extends (w w1 : World) : Prop := mk_extends {
  ext_length : (List.length (futures w) ≤ List.length (futures w1))%nat;
  ext_settled : ∀ k, (k < List.length (futures w))%nat →
                     is_settled (future w k) = true → future w1 k = future w k
}.

(** ** Acceptance *)

(** The producers that the calls of [add] among [es] accept, in order: those
    whose [add] returned a fulfilled promise. *)
Fixpoint accepted (es : list Event) (w : World) : list TaskProducer :=
  match es with
  | [] => []
  | e :: rest =>
      match exec e w with
      | Some w1 =>
          match e with
          | CallAdd taskProducer =>
              if is_fulfilled (snd (add taskProducer w))
              then taskProducer :: accepted rest w1
              else accepted rest w1
          | _ => accepted rest w1
          end
      | None => []
      end
  end.

(** ** [createRelease] (remix, scripts/createRelease.js)

    The script talks to the Sentry CLI, to [deleteSourcemaps] and to the
    console. Each of these calls is an effect, recorded in a log in the
    order in which it happens; what a call returns or throws is given by
    the outside. An [await] on a rejected promise throws like a call. *)

Module CreateRelease.

(** What is thrown: known by its message. *)
Definition Error : Type := string.

(** The parsed command line: [release] is a string or absent, the flags are
    booleans or absent. *)
Record Argv : Type := mkArgv {
  release : option string;
  disableDebugIds : option bool;
  deleteAfterUpload : option bool
}.

(** Truthiness of an optional string (the empty string is falsy) and of an
    optional boolean. *)
Definition truthy_string (v : option string) : bool :=
  match v with
  | Some s => negb (String.eqb s "")
  | None => false
  end.

Definition truthy_bool (v : option bool) : bool := default false v.

(** The options object given to [uploadSourceMaps]. *)
Record UploadOptions : Type := mkUploadOptions {
  urlPrefix : string;
  include : list string;
  useArtifactBundle : bool
}.

Inductive Effect : Type :=
| ProposeVersion
| ReleasesNew (release : string)
| UploadSourceMaps (release : string) (options : UploadOptions)
| Finalize (release : string)
| DeleteSourcemaps (buildPath : string)
| ConsoleWarn (message : string)
| ConsoleError (error : Error).

(** How the outside answers each call: [inl error] when the call throws or
    its promise is rejected, [inr] with the result otherwise. *)
Record Outside : Type := mkOutside {
  proposeVersion : Error + string;
  releasesNew : string → Error + unit;
  uploadSourceMaps : string → UploadOptions → Error + unit;
  finalize : string → Error + unit;
  deleteSourcemaps : string → Error + unit
}.

(** A computation extends the log and returns a value or throws. *)
Definition M (A : Type) : Type := list Effect → list Effect * (Error + A).

#[global] Instance M_ret : MRet M := fun A (a : A) log => (log, inr a).

#[global] Instance M_bind : MBind M :=
  fun A B (k : A → M B) (m : M A) log =>
    match m log with
    | (log1, inr a) => k a log1
    | (log1, inl e) => (log1, inl e)
    end.

(** [throw error]. *)
Definition throw {A} (e : Error) : M A := fun log => (log, inl e).

(** [try { body } catch (error) { handler }]. *)
Definition try_catch {A} (body : M A) (handler : Error → M A) : M A :=
  fun log =>
    match body log with
    | (log1, inl e) => handler e log1
    | done => done
    end.

(** A call to the outside: it is logged, then returns or throws. *)
Definition perform {A} (effect : Effect) (outcome : Error + A) : M A :=
  fun log => (log ++ [effect], outcome).

Definition console_warn (message : string) : M unit :=
  perform (ConsoleWarn message) (inr tt).

Definition console_error (error : Error) : M unit :=
  perform (ConsoleError error) (inr tt).

(** The [release] of the script: [argv.release], or the version that the
    CLI proposes. *)
Definition chooseRelease (sentry : Outside) (argv : Argv) : M string :=
  if negb (truthy_string (release argv)) then
    try_catch
      (perform ProposeVersion (proposeVersion sentry))
      (fun error =>
         console_warn "[sentry] Failed to propose a release version.";;
         console_warn
           "[sentry] You can specify a release version with `--release` flag.";;
         console_warn
           "[sentry] For example: `sentry-upload-sourcemaps --release 1.0.0`";;
         throw error)
  else mret (default "" (release argv)).

(** The options of the upload. *)
Definition uploadOptions (argv : Argv) (URL_PREFIX BUILD_PATH : string)
    : UploadOptions :=
  {| urlPrefix := URL_PREFIX;
     include := [BUILD_PATH];
     useArtifactBundle := negb (truthy_bool (disableDebugIds argv)) |}.

(** [createRelease(argv, URL_PREFIX, BUILD_PATH)]. *)
Definition createRelease (sentry : Outside) (argv : Argv)
    (URL_PREFIX BUILD_PATH : string) : M unit :=
  release ← chooseRelease sentry argv;
  perform (ReleasesNew release) (releasesNew sentry release);;
  perform (UploadSourceMaps release (uploadOptions argv URL_PREFIX BUILD_PATH))
          (uploadSourceMaps sentry release
             (uploadOptions argv URL_PREFIX BUILD_PATH));;
  perform (Finalize release) (finalize sentry release);;
  if truthy_bool (deleteAfterUpload argv) then
    try_catch
      (perform (DeleteSourcemaps BUILD_PATH) (deleteSourcemaps sentry BUILD_PATH))
      (fun error =>
         console_warn
           ("[sentry] Failed to delete sourcemaps in build directory: "
            +:+ BUILD_PATH);;
         console_error error)
  else mret tt.

(** The calls to the CLI and to [deleteSourcemaps] in a log, without the
    lines written to the console. *)
Definition is_console (effect : Effect) : bool :=
  match effect with
  | ConsoleWarn _ | ConsoleError _ => true
  | _ => false
  end.

Definition calls (log : list Effect) : list Effect :=
  List.filter (fun effect => negb (is_console effect)) log.

End CreateRelease.

(** * Properties *)

(** ** The fetch adapter *)

Lemma requestDefaults_dom options request :
  dom (requestDefaults options request)
  = ({["body"; "method"; "referrerPolicy"; "headers"]} : gset string).
Proof. unfold requestDefaults. rewrite !dom_insert_L. set_solver. Qed.

Lemma requestOptions_lookup options request k :
  requestOptions options request !! k =
  match default ∅ (EdgeTransportOptions.fetchOptions options) !! k with
  | Some v => Some v
  | None => requestDefaults options request !! k
  end.
Proof.
  unfold requestOptions, Js.spread.
  destruct (EdgeTransportOptions.fetchOptions options) as [F|]; simpl.
  - rewrite lookup_union.
    by destruct (F !! k), (requestDefaults options request !! k).
  - by rewrite lookup_empty.
Qed.

(** C1 (as amended): the request handed to [fetch] is the object
    [{body, method: 'POST', referrerPolicy: 'origin', headers: H}] with every
    field that the overlay [F] defines replaced by [F]'s value. So method,
    referrer policy and body are POST, 'origin' and the request body where
    [F] does not define them, and the headers are [F]'s headers as a whole
    when [F] has a [headers] field and [H] otherwise: the two header maps
    are not merged entry by entry. Fields that only [F] defines are kept,
    and the URL is the configured one. *)
Theorem makeRequest_request_init options request :
  let F := default ∅ (EdgeTransportOptions.fetchOptions options) in
  let call := fst (makeRequest options request) in
  Fetch.url call = EdgeTransportOptions.url options ∧
  Fetch.init call !! "method"
    = Some (default (Js.Str "POST") (F !! "method")) ∧
  Fetch.init call !! "referrerPolicy"
    = Some (default (Js.Str "origin") (F !! "referrerPolicy")) ∧
  Fetch.init call !! "body"
    = Some (default (Js.Str (TransportRequest.body request)) (F !! "body")) ∧
  Fetch.init call !! "headers"
    = Some (default (Js.of_optional (EdgeTransportOptions.headers options))
                    (F !! "headers")) ∧
  ∀ k, k ∉ ({["body"; "method"; "referrerPolicy"; "headers"]} : gset string) →
       Fetch.init call !! k = F !! k.
Proof.
  simpl. split; [reflexivity|].
  repeat split; try (rewrite requestOptions_lookup;
    match goal with |- context [?m !! ?key] => destruct (m !! key) end;
    reflexivity).
  intros k Hk. rewrite requestOptions_lookup.
  destruct (default ∅ (EdgeTransportOptions.fetchOptions options) !! k);
    [done|].
  apply not_elem_of_dom. by rewrite requestDefaults_dom.
Qed.

Lemma makeRequest_request_init_witness :
  let options :=
    EdgeTransportOptions.mk "https://sentry.example/api/1/envelope/"
      (Some {["X-Fixed" := "1"]})
      (Some {["keepalive" := Js.Str "true"]}) None in
  Fetch.init (fst (makeRequest options (TransportRequest.mk "envelope")))
    !! "keepalive" = Some (Js.Str "true").
Proof.
  intros options.
  destruct (makeRequest_request_init options (TransportRequest.mk "envelope"))
    as (_ & _ & _ & _ & _ & Hother).
  rewrite Hother; [reflexivity|].
  rewrite !not_elem_of_union, !not_elem_of_singleton. by repeat split.
Defined.

(** C1 (counterexample): with fixed headers [{a: 1}] and the overlay
    [{method: 'GET', headers: {b: 2}}] the request uses GET and carries the
    headers [{b: 2}] only, not the merge [{a: 1, b: 2}]. *)
Lemma makeRequest_overlay_counterexample :
  let H : gmap string string := {["a" := "1"]} in
  let F : gmap string Js.value :=
    <["method" := Js.Str "GET"]> {["headers" := Js.Obj {["b" := "2"]}]} in
  let request := TransportRequest.mk "envelope" in
  let init :=
    requestOptions
      (EdgeTransportOptions.mk "https://sentry.example/" (Some H) (Some F) None)
      request in
  init !! "method" = Some (Js.Str "GET") ∧
  init !! "headers" = Some (Js.Obj {["b" := "2"]}) ∧
  spec_merged_headers H F = Js.Obj (<["b" := "2"]> {["a" := "1"]}) ∧
  ¬ spec_outbound_request "https://sentry.example/" H F request.
Proof.
  simpl. split; [reflexivity|]. split; [reflexivity|].
  split.
  - reflexivity.
  - intros (Hmethod & _). unfold requestOptions in Hmethod. simpl in Hmethod.
    rewrite lookup_union, lookup_insert_eq in Hmethod. discriminate.
Qed.

Lemma Headers_get_absent name h :
  Forall (fun kv => Headers.same_name name (fst kv) = false) h →
  Headers.get name h = None.
Proof.
  intros Habsent. unfold Headers.get, Headers.values.
  replace (List.filter (fun kv => Headers.same_name name (fst kv)) h)
    with (@nil (string * string)); [reflexivity|].
  induction Habsent as [|kv rest Hkv _ IH]; simpl; [reflexivity|].
  by rewrite Hkv.
Qed.

Lemma Headers_get_single name h v :
  Headers.values name h = [v] → Headers.get name h = Some v.
Proof.
  intros Hv. unfold Headers.get. rewrite Hv. simpl. reflexivity.
Qed.

(** C7: the result built from a response has the response's status as
    [statusCode], and a [headers] object with exactly the two keys
    'x-sentry-rate-limits' and 'retry-after', bound to what
    [response.headers.get] returns for 'X-Sentry-Rate-Limits' and
    'Retry-After': the header's value when it is there, [null] (the key is
    still present) when it is not. Nothing else of the response is used:
    two responses with the same status and the same two headers give the
    same result. *)
Theorem makeRequest_response_mapping options request response :
  let result := onResponse response in
  let h := Response.headers response in
  snd (makeRequest options request) (Fulfilled response) = Fulfilled result ∧
  TransportMakeRequestResponse.statusCode result = Response.status response ∧
  dom (TransportMakeRequestResponse.headers result)
    = ({["x-sentry-rate-limits"; "retry-after"]} : gset string) ∧
  TransportMakeRequestResponse.headers result !! "x-sentry-rate-limits"
    = Some (Headers.get "X-Sentry-Rate-Limits" h) ∧
  TransportMakeRequestResponse.headers result !! "retry-after"
    = Some (Headers.get "Retry-After" h) ∧
  (∀ v, Headers.values "X-Sentry-Rate-Limits" h = [v] →
     TransportMakeRequestResponse.headers result !! "x-sentry-rate-limits"
       = Some (Some v)) ∧
  (∀ v, Headers.values "Retry-After" h = [v] →
     TransportMakeRequestResponse.headers result !! "retry-after"
       = Some (Some v)) ∧
  (Forall (fun kv => Headers.same_name "X-Sentry-Rate-Limits" (fst kv) = false) h →
     TransportMakeRequestResponse.headers result !! "x-sentry-rate-limits"
       = Some None) ∧
  (Forall (fun kv => Headers.same_name "Retry-After" (fst kv) = false) h →
     TransportMakeRequestResponse.headers result !! "retry-after"
       = Some None) ∧
  (∀ response',
     Response.status response' = Response.status response →
     Headers.get "X-Sentry-Rate-Limits" (Response.headers response')
       = Headers.get "X-Sentry-Rate-Limits" h →
     Headers.get "Retry-After" (Response.headers response')
       = Headers.get "Retry-After" h →
     snd (makeRequest options request) (Fulfilled response')
     = Fulfilled result).
Proof.
  simpl. split_and!.
  - reflexivity.
  - reflexivity.
  - rewrite !dom_insert_L, dom_empty_L. by rewrite (right_id_L ∅ (∪)).
  - by rewrite lookup_insert_eq.
  - rewrite lookup_insert_ne by done. by rewrite lookup_insert_eq.
  - intros v Hv. rewrite lookup_insert_eq.
    by rewrite (Headers_get_single _ _ _ Hv).
  - intros v Hv. rewrite lookup_insert_ne by done. rewrite lookup_insert_eq.
    by rewrite (Headers_get_single _ _ _ Hv).
  - intros Habsent. rewrite lookup_insert_eq.
    by rewrite (Headers_get_absent _ _ Habsent).
  - intros Habsent. rewrite lookup_insert_ne by done. rewrite lookup_insert_eq.
    by rewrite (Headers_get_absent _ _ Habsent).
  - intros response' Hstatus Hlimits Hretry. unfold onResponse.
    by rewrite Hstatus, Hlimits, Hretry.
Qed.

Lemma makeRequest_response_mapping_witness :
  let options := EdgeTransportOptions.mk "https://sentry.example/" None None None in
  let response :=
    Response.mk 429 [("Content-Type", "application/json");
                     ("x-sentry-rate-limits", "60:key")] in
  let result := onResponse response in
  snd (makeRequest options (TransportRequest.mk "envelope"))
      (Fulfilled response) = Fulfilled result ∧
  TransportMakeRequestResponse.headers result !! "x-sentry-rate-limits"
    = Some (Some "60:key") ∧
  TransportMakeRequestResponse.headers result !! "retry-after" = Some None ∧
  TransportMakeRequestResponse.headers result !! "content-type" = None ∧
  snd (makeRequest options (TransportRequest.mk "envelope"))
      (Fulfilled (Response.mk 429 [("X-Sentry-Rate-Limits", "60:key")]))
  = Fulfilled result.
Proof.
  intros options response result.
  destruct (makeRequest_response_mapping options
              (TransportRequest.mk "envelope") response)
    as (Hresult & _ & Hdom & _ & _ & Hlimits & _ & _ & Hretry & Hsame).
  split; [exact Hresult|].
  split; [apply Hlimits; reflexivity|].
  split; [apply Hretry; repeat constructor|].
  split; [|apply Hsame; reflexivity].
  apply not_elem_of_dom. subst result. rewrite Hdom.
  rewrite !not_elem_of_union, !not_elem_of_singleton. by repeat split.
Defined.

(** ** The buffer and the event loop: basic facts *)

Lemma set_buffer_id w : set_buffer (buffer w) w = w.
Proof. by destruct w. Qed.

Lemma invoke_all_spec taskProducers w :
  invoke_all taskProducers w =
  ({| buffer := buffer w;
      invoked := invoked w ++ taskProducers;
      futures := futures w ++ replicate (List.length taskProducers) Pending;
      drains := drains w;
      now := now w |},
   seq (List.length (futures w)) (List.length taskProducers)).
Proof.
  revert w. induction taskProducers as [|tp rest IH]; intros w.
  - simpl. rewrite !app_nil_r. by destruct w.
  - cbn [invoke_all invoke]. rewrite IH. cbn.
    rewrite <- !app_assoc, length_app. cbn.
    by replace (List.length (futures w) + 1)%nat
      with (S (List.length (futures w))) by lia.
Qed.

(** The drain that a call of [drain] creates. *)
Lemma drain_spec timeout w :
  drain timeout w =
  ({| buffer := IsolatedPromiseBuffer.reset_taskProducers (buffer w);
      invoked := invoked w ++ pending w;
      futures := futures w ++ replicate (List.length (pending w)) Pending;
      drains := drains w ++
        [{| oldTaskProducers := pending w;
            timeout := timeout;
            timer := Armed (now w + Z.max 0 (default 0 timeout));
            started := seq (List.length (futures w)) (List.length (pending w));
            reacted := false;
            promise := Pending |}];
      now := now w |},
   List.length (drains w)).
Proof. unfold drain. rewrite invoke_all_spec. reflexivity. Qed.

Lemma Promise_all_caught (ps : list (Settlement TransportMakeRequestResponse.t)) :
  (∀ e, Promise.all (map caught ps) ≠ Rejected e) ∧
  is_fulfilled (Promise.all (map caught ps)) = forallb is_settled ps.
Proof.
  induction ps as [|p rest [IHrej IHful]]; [done|].
  cbn [map Promise.all forallb].
  destruct p as [|v|e]; cbn;
    destruct (Promise.all (map caught rest)) as [|vs|e'] eqn:Hrest;
    cbn in *; rewrite <- ?IHful; try done; by destruct (IHrej e').
Qed.

(** The failures are caught: the aggregate promise of a drain is never
    rejected, and it is fulfilled exactly when every future of the drain has
    settled, in whichever way. *)
Lemma aggregate_never_rejected w d e : aggregate w d ≠ Rejected e.
Proof.
  unfold aggregate.
  rewrite <- (map_map (future w) caught). apply Promise_all_caught.
Qed.

Lemma aggregate_fulfilled w d :
  is_fulfilled (aggregate w d) = all_settled w d.
Proof.
  unfold aggregate, all_settled.
  rewrite <- (map_map (future w) caught).
  rewrite (proj2 (Promise_all_caught _)).
  induction (started d) as [|k ks IH]; [done|]. cbn. by rewrite IH.
Qed.

Lemma ready_spec w d :
  ready w d = negb (reacted d) && all_settled w d.
Proof. unfold ready. by rewrite aggregate_fulfilled. Qed.

Lemma all_settled_Forall w d :
  all_settled w d = true ↔
  Forall (fun k => is_settled (future w k) = true) (started d).
Proof.
  unfold all_settled. induction (started d) as [|k ks IH]; cbn.
  - split; [constructor|done].
  - rewrite andb_true_iff, IH, Forall_cons. done.
Qed.

Lemma extends_same_futures w w1 : futures w1 = futures w → extends w w1.
Proof.
  intros Heq. split; [by rewrite Heq|]. intros k _ _. unfold future.
  by rewrite Heq.
Qed.

Lemma future_app w k more :
  (k < List.length (futures w))%nat →
  default Pending ((futures w ++ more) !! k) = future w k.
Proof. intros Hk. unfold future. by rewrite lookup_app_l. Qed.

Lemma add_futures tp w : futures (fst (add tp w)) = futures w.
Proof.
  unfold add. by destruct (IsolatedPromiseBuffer.add tp (buffer w)).
Qed.

Lemma add_drains tp w : drains (fst (add tp w)) = drains w.
Proof.
  unfold add. by destruct (IsolatedPromiseBuffer.add tp (buffer w)).
Qed.

Lemma add_invoked tp w : invoked (fst (add tp w)) = invoked w.
Proof.
  unfold add. by destruct (IsolatedPromiseBuffer.add tp (buffer w)).
Qed.

(** Destructs the tests of a successful [exec]. *)
Ltac exec_cases H :=
  cbn [exec] in H;
  repeat match type of H with
         | context [match ?x with _ => _ end] =>
             let E := fresh "E" in destruct x eqn:E; try discriminate H
         end;
  try (injection H as <-).

Lemma exec_extends e w w1 : exec e w = Some w1 → extends w w1.
Proof.
  intros Hexec. destruct e as [tp|timeout|i|k outcome|i|ms].
  - exec_cases Hexec. apply extends_same_futures, add_futures.
  - exec_cases Hexec. rewrite drain_spec. cbn. split; cbn.
    + rewrite length_app. lia.
    + intros k Hk _. by apply future_app.
  - exec_cases Hexec. by apply extends_same_futures.
  - exec_cases Hexec. split; cbn.
    + by rewrite length_insert.
    + intros k' Hk' Hsettled. unfold future in *. cbn.
      destruct (decide (k = k')) as [->|Hne].
      * rewrite E0 in Hsettled. discriminate.
      * by rewrite list_lookup_insert_ne.
  - exec_cases Hexec. by apply extends_same_futures.
  - exec_cases Hexec. by apply extends_same_futures.
Qed.

Lemma all_settled_extends w w1 d :
  extends w w1 →
  Forall (fun k => (k < List.length (futures w))%nat) (started d) →
  all_settled w d = true → all_settled w1 d = true.
Proof.
  intros [_ Hset] Hstarted. rewrite !all_settled_Forall.
  intros Hall. induction Hstarted as [|k ks Hk _ IH]; [constructor|].
  apply Forall_cons in Hall as [Hk_settled Hks]. constructor; [|by apply IH].
  by rewrite (Hset k Hk Hk_settled).
Qed.

Lemma drain_ok_extends w w1 d : extends w w1 → drain_ok w d → drain_ok w1 d.
Proof.
  intros Hext [Hstarted Hrej Hsettled Hresolved Htrue Hfalse Htimer Hcleared].
  split; try done.
  - eapply Forall_impl; [exact Hstarted|]. intros k Hk. cbn in *.
    destruct Hext as [Hlen _]. lia.
  - intros Hreacted. eapply all_settled_extends; eauto.
Qed.

Lemma drain_ok_onAllSettled w d :
  drain_ok w d → ready w d = true → drain_ok w (onAllSettled d).
Proof.
  intros [Hstarted Hrej Hsettled Hresolved Htrue Hfalse Htimer Hcleared] Hready.
  rewrite ready_spec in Hready.
  apply andb_true_iff in Hready as [Hreacted Hall].
  apply negb_true_iff in Hreacted.
  assert (Htimed : ∀ p,
    timed_out (mkDrain (oldTaskProducers d) (timeout d) (clearTimeout (timer d))
                       (started d) true p) = timed_out d).
  { intros p. unfold timed_out. cbn. by destruct (timer d). }
  unfold onAllSettled, resolve. cbn.
  destruct (promise d) as [|[|]|e] eqn:Hpromise.
  - split; cbn; try done.
    + split; [done|]. rewrite Htimed. intros Hout.
      apply Hfalse in Hout. discriminate.
    + intros _ deadline. by destruct (timer d).
  - specialize (Htrue eq_refl). congruence.
  - split; cbn; try done.
    + split; [intros _|done]. rewrite Htimed. by apply Hfalse.
    + intros _ deadline. by destruct (timer d).
  - by destruct (Hrej e).
Qed.

Lemma drain_ok_onTimeout w d deadline :
  drain_ok w d → timer d = Armed deadline → drain_ok w (onTimeout d).
Proof.
  intros [Hstarted Hrej Hsettled Hresolved Htrue Hfalse Htimer Hcleared] Harmed.
  assert (Hreacted : reacted d = false).
  { destruct (reacted d) eqn:Hr; [|done]. by destruct (Htimer eq_refl deadline). }
  assert (Hpending : promise d = Pending).
  { destruct (promise d) as [|[|]|e] eqn:Hpromise; [done| | |].
    - specialize (Htrue eq_refl). congruence.
    - destruct Hfalse as [Hfalse _]. specialize (Hfalse eq_refl).
      unfold timed_out in Hfalse. rewrite Harmed in Hfalse. discriminate.
    - by destruct (Hrej e). }
  unfold onTimeout, resolve. cbn. rewrite Hpending.
  destruct (positive_timeout (timeout d)) eqn:Hpos; cbn.
  - split; cbn; try done; rewrite ?Hreacted; done.
  - split; cbn; try done; rewrite ?Hreacted, ?Hpending; try done.
    unfold timed_out. cbn. by rewrite Hpos.
Qed.

Lemma drain_ok_new timeout w :
  drain_ok (fst (drain timeout w))
    {| oldTaskProducers := pending w;
       timeout := timeout;
       timer := Armed (now w + Z.max 0 (default 0 timeout));
       started := seq (List.length (futures w)) (List.length (pending w));
       reacted := false;
       promise := Pending |}.
Proof.
  rewrite drain_spec. split; cbn; try done.
  apply Forall_forall. intros k Hk. apply elem_of_seq in Hk.
  rewrite length_app, length_replicate. lia.
Qed.

Lemma world_ok_init bufferSize : world_ok bufferSize (init bufferSize).
Proof.
  split; cbn; try done. lia.
Qed.

Lemma exec_world_ok bufferSize e w w1 :
  world_ok bufferSize w → exec e w = Some w1 → world_ok bufferSize w1.
Proof.
  intros Hok Hexec. pose proof (exec_extends _ _ _ Hexec) as Hext.
  destruct Hok as [Hdollar Hsize Hbound Hlog Hdrains].
  assert (Hkept : Forall (drain_ok w1) (drains w)).
  { eapply Forall_impl; [exact Hdrains|]. intros d. by apply drain_ok_extends. }
  destruct e as [tp|timeout|i|k outcome|i|ms].
  - cbn in Hexec. injection Hexec as <-.
    split; rewrite ?add_futures, ?add_drains, ?add_invoked; try done;
      unfold pending, add, IsolatedPromiseBuffer.add in *;
      destruct (Z.of_nat _ >=? _) eqn:Hfull; cbn; try done.
    rewrite length_app. cbn. lia.
  - cbn in Hexec. injection Hexec as <-.
    pose proof (drain_ok_new timeout w) as Hnew.
    rewrite drain_spec in *. cbn in *. split; cbn; try done.
    + lia.
    + rewrite !length_app, length_replicate. unfold pending. lia.
    + apply Forall_app. split; [done|]. by constructor.
  - exec_cases Hexec. split; cbn; try done.
    apply Forall_insert; [done|].
    apply (drain_ok_extends w); [done|].
    apply drain_ok_onAllSettled; [|done].
    by eapply Forall_lookup_1.
  - exec_cases Hexec. split; cbn; try done.
    by rewrite length_insert.
  - exec_cases Hexec. split; cbn; try done.
    apply Forall_insert; [done|].
    apply (drain_ok_extends w); [done|].
    eapply drain_ok_onTimeout; [|done].
    by eapply Forall_lookup_1.
  - exec_cases Hexec. by split.
Qed.

(** Every world that can be reached satisfies the invariants. *)
Lemma reachable_ok bufferSize w : reachable bufferSize w → world_ok bufferSize w.
Proof.
  induction 1 as [|w e w1 _ IH Hexec]; [apply world_ok_init|].
  by eapply exec_world_ok.
Qed.

Lemma reachable_run bufferSize es w w1 :
  reachable bufferSize w → run es w = Some w1 → reachable bufferSize w1.
Proof.
  revert w. induction es as [|e rest IH]; intros w Hreach Hrun; cbn in Hrun.
  - by injection Hrun as <-.
  - destruct (exec e w) as [w2|] eqn:Hexec; [|discriminate].
    eapply IH; [|done]. by eapply reachable_step.
Qed.

Lemma reachable_drain_ok bufferSize w i d :
  reachable bufferSize w → drains w !! i = Some d → drain_ok w d.
Proof.
  intros Hreach Hd. apply reachable_ok in Hreach.
  eapply Forall_lookup_1; [apply (ok_drains _ _ Hreach)|done].
Qed.

(** ** [add] *)

Lemma IsolatedPromiseBuffer_add_full taskProducer this :
  Z.of_nat (List.length (IsolatedPromiseBuffer._taskProducers this))
    >= IsolatedPromiseBuffer._bufferSize this →
  IsolatedPromiseBuffer.add taskProducer this
  = (this, Rejected (SentryError BUFFER_FULL_MESSAGE)).
Proof.
  intros Hfull. unfold IsolatedPromiseBuffer.add.
  destruct (Z.geb_spec
              (Z.of_nat (List.length (IsolatedPromiseBuffer._taskProducers this)))
              (IsolatedPromiseBuffer._bufferSize this)); [done|lia].
Qed.

Lemma IsolatedPromiseBuffer_add_room taskProducer this :
  Z.of_nat (List.length (IsolatedPromiseBuffer._taskProducers this))
    < IsolatedPromiseBuffer._bufferSize this →
  IsolatedPromiseBuffer.add taskProducer this
  = ({| IsolatedPromiseBuffer.dollar := IsolatedPromiseBuffer.dollar this;
        IsolatedPromiseBuffer._taskProducers :=
          IsolatedPromiseBuffer._taskProducers this ++ [taskProducer];
        IsolatedPromiseBuffer._bufferSize :=
          IsolatedPromiseBuffer._bufferSize this |},
     Fulfilled tt).
Proof.
  intros Hroom. unfold IsolatedPromiseBuffer.add.
  destruct (Z.geb_spec
              (Z.of_nat (List.length (IsolatedPromiseBuffer._taskProducers this)))
              (IsolatedPromiseBuffer._bufferSize this)); [lia|done].
Qed.

(** Only a call of [drain] calls producers, and it calls those that were
    waiting. *)
Lemma exec_invoked e w w1 :
  exec e w = Some w1 →
  invoked w1 = invoked w ∨
  ∃ timeout, e = CallDrain timeout ∧ invoked w1 = invoked w ++ pending w.
Proof.
  intros Hexec. destruct e as [tp|timeout|i|k outcome|i|ms].
  - exec_cases Hexec. left. apply add_invoked.
  - exec_cases Hexec. right. exists timeout. by rewrite drain_spec.
  - exec_cases Hexec. by left.
  - exec_cases Hexec. by left.
  - exec_cases Hexec. by left.
  - exec_cases Hexec. by left.
Qed.

(** C2: a buffer whose pending list holds at least as many producers as its
    capacity rejects [add] with the [SentryError] of a full buffer and is
    left exactly as it was, the producer not appended; the capacity is 30
    when the constructor gets none. In a buffer made by the constructor the
    list then holds exactly the capacity (none, for a capacity below
    zero). *)
Theorem add_rejects_when_full w taskProducer :
  Z.of_nat (List.length (pending w))
    >= IsolatedPromiseBuffer._bufferSize (buffer w) →
  add taskProducer w = (w, Rejected (SentryError BUFFER_FULL_MESSAGE)) ∧
  exec (CallAdd taskProducer) w = Some w ∧
  IsolatedPromiseBuffer._bufferSize (IsolatedPromiseBuffer.new None) = 30 ∧
  (∀ C, IsolatedPromiseBuffer._bufferSize (IsolatedPromiseBuffer.new (Some C)) = C) ∧
  (∀ bufferSize, reachable bufferSize w →
     IsolatedPromiseBuffer._bufferSize (buffer w) = capacity bufferSize ∧
     Z.of_nat (List.length (pending w)) = Z.max 0 (capacity bufferSize)).
Proof.
  intros Hfull.
  assert (Hadd : add taskProducer w
                 = (w, Rejected (SentryError BUFFER_FULL_MESSAGE))).
  { unfold add. rewrite IsolatedPromiseBuffer_add_full by done.
    by rewrite set_buffer_id. }
  split_and!; try done.
  - cbn. by rewrite Hadd.
  - intros bufferSize Hreach. apply reachable_ok in Hreach.
    destruct Hreach as [_ Hsize Hbound _ _]. split; [done|].
    rewrite Hsize in Hfull. lia.
Qed.

Lemma add_rejects_when_full_witness :
  ∃ w, run [CallAdd "first"; CallAdd "second"] (init (Some 2)) = Some w ∧
       pending w = ["first"; "second"] ∧
       add "third" w = (w, Rejected (SentryError BUFFER_FULL_MESSAGE)).
Proof.
  exists (mkWorld (IsolatedPromiseBuffer.mk [] ["first"; "second"] 2) [] [] [] 0).
  split; [reflexivity|]. split; [reflexivity|].
  apply add_rejects_when_full. cbn. lia.
Defined.

(** C8: below capacity [add] appends the producer at the end of the pending
    list and returns a promise that is already fulfilled. The producer is
    not called: the record of calls, the futures and the drains in flight
    are unchanged. Calls are made by [drain] only, and the next [drain]
    calls the producer after those that were waiting before it. *)
Theorem add_enqueues_without_invoking w taskProducer :
  Z.of_nat (List.length (pending w))
    < IsolatedPromiseBuffer._bufferSize (buffer w) →
  let w1 := fst (add taskProducer w) in
  snd (add taskProducer w) = Fulfilled tt ∧
  exec (CallAdd taskProducer) w = Some w1 ∧
  pending w1 = pending w ++ [taskProducer] ∧
  invoked w1 = invoked w ∧
  futures w1 = futures w ∧
  drains w1 = drains w ∧
  (∀ e w2, exec e w1 = Some w2 → invoked w2 ≠ invoked w1 →
           ∃ timeout, e = CallDrain timeout) ∧
  (∀ timeout, invoked (fst (drain timeout w1))
              = invoked w ++ pending w ++ [taskProducer]).
Proof.
  intros Hroom. cbn zeta. cbn [exec].
  unfold add. rewrite IsolatedPromiseBuffer_add_room by done. cbn.
  split_and!; try done.
  - intros e w2 Hexec Hchanged.
    destruct (exec_invoked _ _ _ Hexec) as [Hsame|(timeout & -> & _)];
      [done|by exists timeout].
  - intros timeout. by rewrite drain_spec.
Qed.

Lemma add_enqueues_without_invoking_witness :
  ∃ w, run [CallAdd "first"] (init None) = Some w ∧
       add "second" w
       = (set_buffer
            (IsolatedPromiseBuffer.mk [] ["first"; "second"] 30) w,
          Fulfilled tt) ∧
       invoked (fst (add "second" w)) = [].
Proof.
  exists (mkWorld (IsolatedPromiseBuffer.mk [] ["first"] 30) [] [] [] 0).
  split; [reflexivity|].
  match goal with |- add ?tp ?w = _ ∧ _ =>
    destruct (add_enqueues_without_invoking w tp) as (Hr & _ & Hp & Hi & _)
  end; [cbn; lia|].
  split; [|exact Hi]. reflexivity.
Defined.

Lemma add_all_room taskProducers this :
  Z.of_nat (List.length (IsolatedPromiseBuffer._taskProducers this)
            + List.length taskProducers)
    ≤ IsolatedPromiseBuffer._bufferSize this →
  IsolatedPromiseBuffer.add_all taskProducers this
  = ({| IsolatedPromiseBuffer.dollar := IsolatedPromiseBuffer.dollar this;
        IsolatedPromiseBuffer._taskProducers :=
          IsolatedPromiseBuffer._taskProducers this ++ taskProducers;
        IsolatedPromiseBuffer._bufferSize :=
          IsolatedPromiseBuffer._bufferSize this |},
     replicate (List.length taskProducers) (Fulfilled tt)).
Proof.
  revert this. induction taskProducers as [|tp rest IH]; intros this Hroom.
  - cbn. rewrite app_nil_r. by destruct this.
  - cbn [IsolatedPromiseBuffer.add_all]. cbn [List.length] in Hroom.
    rewrite IsolatedPromiseBuffer_add_room by lia.
    rewrite IH; cbn; [|rewrite length_app; cbn; lia].
    by rewrite <- app_assoc.
Qed.

Lemma run_adds taskProducers w :
  run (map CallAdd taskProducers) w
  = Some (set_buffer
            (fst (IsolatedPromiseBuffer.add_all taskProducers (buffer w))) w).
Proof.
  revert w. induction taskProducers as [|tp rest IH]; intros w.
  - cbn. by rewrite set_buffer_id.
  - cbn [map run exec]. rewrite IH. unfold add.
    cbn [IsolatedPromiseBuffer.add_all].
    destruct (IsolatedPromiseBuffer.add tp (buffer w)) as [b1 r]. cbn.
    by destruct (IsolatedPromiseBuffer.add_all rest b1).
Qed.

Lemma exec_dollar e w w1 :
  exec e w = Some w1 →
  IsolatedPromiseBuffer.dollar (buffer w1)
  = IsolatedPromiseBuffer.dollar (buffer w).
Proof.
  intros Hexec. destruct e as [tp|timeout|i|k outcome|i|ms].
  - exec_cases Hexec. unfold add, IsolatedPromiseBuffer.add.
    by destruct (Z.of_nat _ >=? _).
  - exec_cases Hexec. by rewrite drain_spec.
  - by exec_cases Hexec.
  - by exec_cases Hexec.
  - by exec_cases Hexec.
  - by exec_cases Hexec.
Qed.

(** C10: whatever the sequence of [add]s, [drain]s and events of the loop
    since the constructor ran, the public array [$] is empty: the
    constructor sets it to the empty array and no operation changes it.
    What is pending is held by [_taskProducers] alone. *)
Theorem dollar_stays_empty bufferSize es w :
  run es (init bufferSize) = Some w →
  IsolatedPromiseBuffer.dollar (IsolatedPromiseBuffer.new bufferSize) = [] ∧
  IsolatedPromiseBuffer.dollar (buffer w) = [] ∧
  (∀ e w1, exec e w = Some w1 →
           IsolatedPromiseBuffer.dollar (buffer w1)
           = IsolatedPromiseBuffer.dollar (buffer w)).
Proof.
  intros Hrun. split; [reflexivity|]. split.
  - eapply ok_dollar, reachable_ok, reachable_run; [apply reachable_init|done].
  - intros e w1. apply exec_dollar.
Qed.

Lemma dollar_stays_empty_witness :
  ∃ w, run [CallAdd "first"; CallAdd "second"; CallDrain None;
            CallAdd "third"; Settle 1 sample_failure] (init (Some 2)) = Some w ∧
       pending w = ["third"] ∧
       IsolatedPromiseBuffer.dollar (buffer w) = [].
Proof.
  exists (mkWorld (IsolatedPromiseBuffer.mk [] ["third"] 2)
            ["first"; "second"] [Pending; sample_failure]
            [mkDrain ["first"; "second"] None (Armed 0) [0%nat; 1%nat]
                     false Pending]
            0).
  split; [reflexivity|]. split; [reflexivity|].
  apply (dollar_stays_empty (Some 2)
           [CallAdd "first"; CallAdd "second"; CallDrain None;
            CallAdd "third"; Settle 1 sample_failure]).
  reflexivity.
Defined.

(** ** [drain]: the synchronous part *)

(** C4: a call of [drain] empties the pending list before it returns: the
    producers that were waiting are moved to the new drain, which has
    called them, and nobody else; its promise is still pending. Whatever
    becomes of that drain, as many [add]s as the capacity allows succeed
    right away; they fill the new pending list and touch neither the drain
    nor the record of calls. *)
Theorem drain_detaches_pending w timeout taskProducers :
  Z.of_nat (List.length taskProducers)
    ≤ IsolatedPromiseBuffer._bufferSize (buffer w) →
  let w1 := fst (drain timeout w) in
  let d := {| oldTaskProducers := pending w;
              timeout := timeout;
              timer := Armed (now w + Z.max 0 (default 0 timeout));
              started := seq (List.length (futures w)) (List.length (pending w));
              reacted := false;
              promise := Pending |} in
  exec (CallDrain timeout) w = Some w1 ∧
  pending w1 = [] ∧
  drains w1 = drains w ++ [d] ∧
  drains w1 !! snd (drain timeout w) = Some d ∧
  invoked w1 = invoked w ++ pending w ∧
  ∃ w2, run (map CallAdd taskProducers) w1 = Some w2 ∧
        snd (IsolatedPromiseBuffer.add_all taskProducers (buffer w1))
        = replicate (List.length taskProducers) (Fulfilled tt) ∧
        pending w2 = taskProducers ∧
        drains w2 = drains w1 ∧
        invoked w2 = invoked w1 ∧
        futures w2 = futures w1.
Proof.
  intros Hroom. cbn zeta. cbn [exec]. rewrite drain_spec. cbn.
  split_and!; try done.
  - by rewrite lookup_app_r, Nat.sub_diag.
  - eexists. split; [apply run_adds|]. cbn.
    rewrite add_all_room by (cbn; lia). done.
Qed.

Lemma drain_detaches_pending_witness :
  ∃ w w1 w2,
    run [CallAdd "first"; CallAdd "second"] (init (Some 2)) = Some w ∧
    exec (CallDrain (Some 100)) w = Some w1 ∧
    pending w1 = [] ∧
    invoked w1 = ["first"; "second"] ∧
    run [CallAdd "third"; CallAdd "fourth"] w1 = Some w2 ∧
    pending w2 = ["third"; "fourth"] ∧
    invoked w2 = ["first"; "second"].
Proof.
  exists (mkWorld (IsolatedPromiseBuffer.mk [] ["first"; "second"] 2) [] [] [] 0).
  match goal with |- ∃ w1 w2, _ ∧ exec (CallDrain ?t) ?w = _ ∧ _ =>
    destruct (drain_detaches_pending w t ["third"; "fourth"])
      as (Hexec & Hpending & _ & _ & Hinvoked & w2 & Hrun & _ & Hp2 & _ & Hi2 & _);
      [cbn; lia|];
    exists (fst (drain t w)), w2
  end.
  split; [reflexivity|]. split; [exact Hexec|]. split; [exact Hpending|].
  split; [exact Hinvoked|]. split; [exact Hrun|]. split; [exact Hp2|].
  rewrite Hi2. exact Hinvoked.
Defined.

(** ** [drain]: the promise returned *)

Lemma forallb_lookup {A} (f : A → bool) (l : list A) i x :
  forallb f l = true → l !! i = Some x → f x = true.
Proof.
  revert i. induction l as [|y l IH]; intros i Hall Hi; [done|].
  cbn in Hall. apply andb_true_iff in Hall as [Hy Hl].
  destruct i as [|i]; cbn in Hi; [by injection Hi as <-|by eapply IH].
Qed.

Lemma forallb_insert {A} (f : A → bool) (l : list A) i x :
  forallb f l = true → f x = true → forallb f (<[i:=x]> l) = true.
Proof.
  revert i. induction l as [|y l IH]; intros i Hall Hx; [done|].
  cbn in Hall. apply andb_true_iff in Hall as [Hy Hl].
  destruct i as [|i]; cbn; apply andb_true_iff; split; auto.
Qed.

Lemma quiescent_lookup w i d :
  quiescent w = true → drains w !! i = Some d → ready w d = false.
Proof.
  intros Hq Hd. apply negb_true_iff.
  by apply (forallb_lookup _ _ _ _ Hq Hd).
Qed.

Lemma all_settled_false w d :
  all_settled w d = false → ∃ k, k ∈ started d ∧ future w k = Pending.
Proof.
  unfold all_settled. induction (started d) as [|k ks IH]; [done|].
  cbn. intros Hall. apply andb_false_iff in Hall as [Hk|Hks].
  - exists k. split; [by left|]. by destruct (future w k).
  - destruct (IH Hks) as (k' & Hin & Hpending).
    exists k'. split; [by right|done].
Qed.

Lemma all_settled_pending w d k :
  k ∈ started d → future w k = Pending → all_settled w d = false.
Proof.
  intros Hin Hpending. destruct (all_settled w d) eqn:Hall; [|done].
  apply all_settled_Forall in Hall.
  rewrite Forall_forall in Hall. specialize (Hall k Hin).
  by rewrite Hpending in Hall.
Qed.

Lemma positive_timeout_false timeout :
  positive_timeout timeout = false ↔
  timeout = None ∨ ∃ t, timeout = Some t ∧ t ≤ 0.
Proof.
  destruct timeout as [t|]; cbn.
  - split.
    + intros Hpos. right. exists t. split; [done|].
      destruct (Z.ltb_spec 0 t); [|done].
      destruct (Z.eqb_spec t 0); [lia|done].
    + intros [|(t' & [= <-] & Hle)]; [done|].
      destruct (Z.ltb_spec 0 t); [lia|]. by rewrite andb_false_r.
  - split; [by left|done].
Qed.

Lemma positive_timeout_true t : 0 < t → positive_timeout (Some t) = true.
Proof.
  intros Hpos. cbn. destruct (Z.ltb_spec 0 t); [|lia].
  by destruct (Z.eqb_spec t 0); [lia|].
Qed.

(** An armed timer belongs to a drain that has neither reacted nor
    resolved its promise. *)
Lemma armed_pending w d deadline :
  drain_ok w d → timer d = Armed deadline →
  reacted d = false ∧ promise d = Pending.
Proof.
  intros [_ Hrej _ _ Htrue Hfalse Htimer _] Harmed.
  assert (Hreacted : reacted d = false).
  { destruct (reacted d) eqn:Hr; [|done]. by destruct (Htimer eq_refl deadline). }
  split; [done|].
  destruct (promise d) as [|[|]|e] eqn:Hpromise; [done| | |].
  - specialize (Htrue eq_refl). congruence.
  - destruct Hfalse as [Hfalse _]. specialize (Hfalse eq_refl).
    unfold timed_out in Hfalse. rewrite Harmed in Hfalse. discriminate.
  - by destruct (Hrej e).
Qed.

(** Once the reaction of a drain has run its promise is fulfilled: with
    [false] if its timer had resolved it before, with [true] otherwise. *)
Lemma reacted_resolved w d :
  drain_ok w d → reacted d = true →
  promise d = Fulfilled (negb (timed_out d)).
Proof.
  intros [_ Hrej _ Hresolved _ Hfalse _ _] Hreacted.
  destruct (promise d) as [|[|]|e] eqn:Hpromise.
  - by destruct (Hresolved Hreacted).
  - destruct Hfalse as [_ Hback].
    destruct (timed_out d); [by specialize (Hback eq_refl)|done].
  - destruct Hfalse as [Hfalse _]. by rewrite (Hfalse eq_refl).
  - by destruct (Hrej e).
Qed.

Lemma onAllSettled_promise w d :
  drain_ok w d → reacted d = false →
  promise (onAllSettled d) = Fulfilled (negb (timed_out d)).
Proof.
  intros [_ Hrej _ _ Htrue Hfalse _ _] Hreacted.
  unfold onAllSettled, resolve. cbn.
  destruct (promise d) as [|[|]|e] eqn:Hpromise; cbn.
  - destruct Hfalse as [_ Hback].
    destruct (timed_out d); [by specialize (Hback eq_refl)|done].
  - specialize (Htrue eq_refl). congruence.
  - destruct Hfalse as [Hfalse _]. by rewrite (Hfalse eq_refl).
  - by destruct (Hrej e).
Qed.

Lemma resolve_kept value d :
  oldTaskProducers (resolve value d) = oldTaskProducers d ∧
  timeout (resolve value d) = timeout d ∧
  started (resolve value d) = started d ∧
  reacted (resolve value d) = reacted d ∧
  timer (resolve value d) = timer d ∧
  (promise d ≠ Pending → promise (resolve value d) = promise d).
Proof.
  unfold resolve. destruct (promise d) eqn:Hpromise; cbn; split_and!; try done.
  all: by rewrite Hpromise.
Qed.

Lemma onAllSettled_kept d :
  oldTaskProducers (onAllSettled d) = oldTaskProducers d ∧
  timeout (onAllSettled d) = timeout d ∧
  started (onAllSettled d) = started d ∧
  reacted (onAllSettled d) = true ∧
  (promise d ≠ Pending → promise (onAllSettled d) = promise d).
Proof.
  unfold onAllSettled.
  match goal with |- context [resolve ?v ?d0] =>
    destruct (resolve_kept v d0) as (-> & -> & -> & -> & _ & Hp)
  end.
  by split_and!.
Qed.

Lemma onTimeout_kept d :
  oldTaskProducers (onTimeout d) = oldTaskProducers d ∧
  timeout (onTimeout d) = timeout d ∧
  started (onTimeout d) = started d ∧
  reacted (onTimeout d) = reacted d ∧
  timer (onTimeout d) = Fired ∧
  (promise d ≠ Pending → promise (onTimeout d) = promise d).
Proof.
  unfold onTimeout. cbn. destruct (positive_timeout (timeout d)); [|done].
  match goal with |- context [resolve ?v ?d0] =>
    destruct (resolve_kept v d0) as (-> & -> & -> & -> & -> & Hp)
  end.
  by split_and!.
Qed.

(** A drain keeps its place, its producers, its futures and its timeout,
    and a promise that has been resolved keeps its value. *)
Lemma exec_drain_stable e w w1 i d :
  exec e w = Some w1 → drains w !! i = Some d →
  ∃ d1, drains w1 !! i = Some d1 ∧
        oldTaskProducers d1 = oldTaskProducers d ∧
        timeout d1 = timeout d ∧
        started d1 = started d ∧
        (promise d ≠ Pending → promise d1 = promise d).
Proof.
  intros Hexec Hd.
  assert (Hi : (i < List.length (drains w))%nat) by by eapply lookup_lt_Some.
  destruct e as [tp|tmo|j|k outcome|j|ms].
  - exec_cases Hexec. exists d. by rewrite add_drains.
  - exec_cases Hexec. exists d. rewrite drain_spec. cbn.
    by rewrite lookup_app_l.
  - exec_cases Hexec. cbn. destruct (decide (j = i)) as [->|Hne].
    + rewrite Hd in E. injection E as <-.
      exists (onAllSettled d). rewrite list_lookup_insert_eq by done.
      destruct (onAllSettled_kept d) as (? & ? & ? & _ & ?). by split_and!.
    + exists d. by rewrite list_lookup_insert_ne.
  - exec_cases Hexec. by exists d.
  - exec_cases Hexec. cbn. destruct (decide (j = i)) as [->|Hne].
    + rewrite Hd in E0. injection E0 as <-.
      exists (onTimeout d). rewrite list_lookup_insert_eq by done.
      destruct (onTimeout_kept d) as (? & ? & ? & _ & _ & ?). by split_and!.
    + exists d. by rewrite list_lookup_insert_ne.
  - exec_cases Hexec. by exists d.
Qed.

Lemma run_drain_stable es w w1 i d :
  run es w = Some w1 → drains w !! i = Some d →
  ∃ d1, drains w1 !! i = Some d1 ∧
        oldTaskProducers d1 = oldTaskProducers d ∧
        timeout d1 = timeout d ∧
        started d1 = started d ∧
        (promise d ≠ Pending → promise d1 = promise d).
Proof.
  revert w d. induction es as [|e rest IH]; intros w d Hrun Hd; cbn in Hrun.
  - injection Hrun as <-. by exists d.
  - destruct (exec e w) as [w2|] eqn:Hexec; [|discriminate].
    destruct (exec_drain_stable _ _ _ _ _ Hexec Hd)
      as (d2 & Hd2 & Hold2 & Htmo2 & Hst2 & Hp2).
    destruct (IH _ _ Hrun Hd2) as (d1 & Hd1 & Hold1 & Htmo1 & Hst1 & Hp1).
    exists d1. split_and!; try congruence.
    intros Hsettled. rewrite Hp1; [by apply Hp2|].
    by rewrite (Hp2 Hsettled).
Qed.

(** With all its futures settled and no reaction pending, a drain has
    resolved its promise. *)
Lemma settled_drain_resolved w i d :
  drain_ok w d → drains w !! i = Some d →
  all_settled w d = true → quiescent w = true →
  reacted d = true ∧ promise d = Fulfilled (negb (timed_out d)).
Proof.
  intros Hok Hd Hall Hq.
  pose proof (quiescent_lookup _ _ _ Hq Hd) as Hready.
  rewrite ready_spec, Hall, andb_true_r in Hready.
  apply negb_false_iff in Hready.
  split; [done|]. by eapply reacted_resolved.
Qed.

(** With all its futures settled, the reaction of a drain is the next thing
    to run if it has not run yet, and it resolves the promise. *)
Lemma settled_drain_reacts w i d :
  drain_ok w d → drains w !! i = Some d →
  all_settled w d = true → reacted d = false →
  exec (Reaction i) w
    = Some (set_drains (<[i := onAllSettled d]> (drains w)) w) ∧
  promise (onAllSettled d) = Fulfilled (negb (timed_out d)).
Proof.
  intros Hok Hd Hall Hreacted. split; [|by eapply onAllSettled_promise].
  cbn. rewrite Hd, ready_spec, Hall, Hreacted. done.
Qed.

(** C3 (as amended): the promise returned by [drain] is never rejected. The
    failure of a producer is caught: the aggregate promise of the drain is
    never rejected either, and it is fulfilled as soon as every producer's
    future has settled, however many of them failed. The reaction then runs
    before any timer or network event and resolves the promise; so once all
    have settled and the reaction has run, the promise is fulfilled with
    [true], unless the timer of a positive timeout had fired earlier, in
    which case it has been fulfilled with [false] and stays so. *)
Theorem drain_never_rejects bufferSize w i d :
  reachable bufferSize w → drains w !! i = Some d →
  (∀ e, promise d ≠ Rejected e) ∧
  (∀ e, aggregate w d ≠ Rejected e) ∧
  (all_settled w d = true → is_fulfilled (aggregate w d) = true) ∧
  (all_settled w d = true → quiescent w = true →
     promise d = Fulfilled (negb (timed_out d))) ∧
  (all_settled w d = true → reacted d = false →
     ∃ w1 d1, exec (Reaction i) w = Some w1 ∧
              drains w1 !! i = Some d1 ∧
              promise d1 = Fulfilled (negb (timed_out d))) ∧
  (positive_timeout (timeout d) = false → timed_out d = false).
Proof.
  intros Hreach Hd.
  pose proof (reachable_drain_ok _ _ _ _ Hreach Hd) as Hok.
  split_and!.
  - apply (ok_not_rejected _ _ Hok).
  - apply aggregate_never_rejected.
  - intros Hall. by rewrite aggregate_fulfilled.
  - intros Hall Hq. by eapply settled_drain_resolved.
  - intros Hall Hreacted.
    destruct (settled_drain_reacts _ _ _ Hok Hd Hall Hreacted) as [Hexec Hp].
    eexists _, (onAllSettled d). split; [exact Hexec|]. split; [|exact Hp].
    cbn. apply list_lookup_insert_eq. by eapply lookup_lt_Some.
  - intros Hpos. unfold timed_out. rewrite Hpos. by destruct (timer d).
Qed.

Lemma drain_never_rejects_witness :
  ∃ w d,
    run [CallAdd "first"; CallAdd "second"; CallDrain None;
         Settle 1 sample_failure; Settle 0 sample_failure; Reaction 0]
        (init None) = Some w ∧
    drains w !! 0%nat = Some d ∧
    promise d = Fulfilled true.
Proof.
  pose (es := [CallAdd "first"; CallAdd "second"; CallDrain None;
               Settle 1 sample_failure; Settle 0 sample_failure; Reaction 0]).
  pose (d := mkDrain ["first"; "second"] None Cleared [0%nat; 1%nat] true
                     (Fulfilled true)).
  pose (w := mkWorld (IsolatedPromiseBuffer.mk [] [] 30) ["first"; "second"]
                     [sample_failure; sample_failure] [d] 0).
  assert (Hrun : run es (init None) = Some w) by reflexivity.
  exists w, d. split; [exact Hrun|]. split; [reflexivity|].
  destruct (drain_never_rejects None w 0 d) as (_ & _ & _ & Hp & _).
  - exact (reachable_run None es _ _ (reachable_init None) Hrun).
  - reflexivity.
  - exact (Hp eq_refl eq_refl).
Defined.

(** C3 (counterexample): [drain(5)] on one slow producer. The timer fires
    at 5 ms and resolves the promise with [false]; the producer settles
    afterwards and the reaction runs, but the promise stays [false]. *)
Lemma drain_resolves_true_counterexample :
  ∃ w d,
    run [CallAdd "slow"; CallDrain (Some 5); Tick 5; TimerFires 0;
         Settle 0 (Fulfilled sample_response); Reaction 0]
        (init None) = Some w ∧
    drains w !! 0%nat = Some d ∧
    all_settled w d = true ∧
    quiescent w = true ∧
    promise d = Fulfilled false ∧
    ¬ spec_drain_resolves_true None.
Proof.
  pose (es := [CallAdd "slow"; CallDrain (Some 5); Tick 5; TimerFires 0;
               Settle 0 (Fulfilled sample_response); Reaction 0]).
  pose (d := mkDrain ["slow"] (Some 5) Fired [0%nat] true (Fulfilled false)).
  pose (w := mkWorld (IsolatedPromiseBuffer.mk [] [] 30) ["slow"]
                     [Fulfilled sample_response] [d] 5).
  assert (Hrun : run es (init None) = Some w) by reflexivity.
  exists w, d. split_and!; try reflexivity.
  intros Hspec.
  destruct (Hspec w 0%nat d) as [_ Htrue].
  - exact (reachable_run None es _ _ (reachable_init None) Hrun).
  - reflexivity.
  - specialize (Htrue eq_refl eq_refl). discriminate.
Qed.

(** C5: when the timeout of a drain is absent, zero or negative, its promise
    is never fulfilled with [false]: the timer, when it fires, leaves the
    promise as it is. The promise is fulfilled with [true] only when every
    future of the drain has settled, and it is then, as soon as the
    reaction has run. *)
Theorem drain_without_timeout_waits bufferSize w i d :
  reachable bufferSize w → drains w !! i = Some d →
  (timeout d = None ∨ ∃ t, timeout d = Some t ∧ t ≤ 0) →
  promise d ≠ Fulfilled false ∧
  (promise d = Fulfilled true → all_settled w d = true) ∧
  (all_settled w d = false → promise d = Pending) ∧
  (all_settled w d = true → quiescent w = true → promise d = Fulfilled true) ∧
  (∀ w1, exec (TimerFires i) w = Some w1 →
         ∃ d1, drains w1 !! i = Some d1 ∧ promise d1 = Pending ∧
               futures w1 = futures w).
Proof.
  intros Hreach Hd Htimeout. apply positive_timeout_false in Htimeout.
  pose proof (reachable_drain_ok _ _ _ _ Hreach Hd) as Hok.
  assert (Hout : timed_out d = false).
  { unfold timed_out. rewrite Htimeout. by destruct (timer d). }
  assert (Hnot_false : promise d ≠ Fulfilled false).
  { intros Hp. apply (ok_false_timed_out _ _ Hok) in Hp. congruence. }
  assert (Htrue : promise d = Fulfilled true → all_settled w d = true).
  { intros Hp. apply (ok_reacted_settled _ _ Hok).
    by apply (ok_true_reacted _ _ Hok). }
  split_and!; try done.
  - intros Hall. destruct (promise d) as [|[|]|e] eqn:Hp; try done.
    + rewrite Htrue in Hall by done. discriminate.
    + by destruct (ok_not_rejected _ _ Hok e).
  - intros Hall Hq.
    destruct (settled_drain_resolved _ _ _ Hok Hd Hall Hq) as [_ Hp].
    by rewrite Hp, Hout.
  - intros w1 Hexec. exec_cases Hexec. simplify_eq.
    exists (onTimeout d). cbn. split_and!; try done.
    + apply list_lookup_insert_eq. by eapply lookup_lt_Some.
    + destruct (armed_pending _ _ _ Hok E1) as [_ Hp].
      unfold onTimeout. cbn. by rewrite Htimeout.
Qed.

Lemma drain_without_timeout_waits_witness :
  ∃ w w1 d1,
    run [CallAdd "slow"; CallDrain (Some 0); Tick 1000] (init None) = Some w ∧
    exec (TimerFires 0) w = Some w1 ∧
    drains w1 !! 0%nat = Some d1 ∧
    promise d1 = Pending.
Proof.
  pose (es := [CallAdd "slow"; CallDrain (Some 0); Tick 1000]).
  pose (d := mkDrain ["slow"] (Some 0) (Armed 0) [0%nat] false Pending).
  pose (w := mkWorld (IsolatedPromiseBuffer.mk [] [] 30) ["slow"]
                     [Pending] [d] 1000).
  assert (Hrun : run es (init None) = Some w) by reflexivity.
  destruct (drain_without_timeout_waits None w 0 d) as (_ & _ & _ & _ & Hfire).
  - exact (reachable_run None es _ _ (reachable_init None) Hrun).
  - reflexivity.
  - right. exists 0. split; [reflexivity|lia].
  - destruct (Hfire _ eq_refl) as (d1 & Hd1 & Hp1 & _).
    exists w, (set_drains (<[0%nat := onTimeout d]> (drains w)) w), d1.
    split; [exact Hrun|]. split; [reflexivity|].
    split; [exact Hd1|exact Hp1].
Defined.

Lemma ready_same_futures w w1 d :
  futures w1 = futures w → ready w1 d = ready w d.
Proof.
  intros Heq. unfold ready, aggregate, future. by rewrite Heq.
Qed.

Lemma quiescent_Forall w :
  quiescent w = true ↔ Forall (fun d => ready w d = false) (drains w).
Proof.
  unfold quiescent. induction (drains w) as [|d ds IH]; cbn.
  - split; [constructor|done].
  - rewrite andb_true_iff, IH, Forall_cons, negb_true_iff. done.
Qed.

Lemma quiescent_insert w i d1 :
  quiescent w = true → ready w d1 = false →
  quiescent (set_drains (<[i := d1]> (drains w)) w) = true.
Proof.
  intros Hq Hready. unfold quiescent. cbn.
  apply forallb_insert.
  - exact Hq.
  - rewrite (ready_same_futures w) by done. by rewrite Hready.
Qed.

(** The network may settle any pending future, with any outcome, as soon as
    no microtask is pending; the other futures play no part. *)
Lemma settle_enabled w k outcome :
  quiescent w = true → futures w !! k = Some Pending →
  is_settled outcome = true →
  exec (Settle k outcome) w
  = Some (set_futures (<[k := outcome]> (futures w)) w).
Proof. intros Hq Hk Ho. cbn. by rewrite Hq, Ho, Hk. Qed.

(** The timer of a drain fires once its deadline has passed and no
    microtask is pending. *)
Lemma timeout_enabled w i d deadline :
  quiescent w = true → drains w !! i = Some d →
  timer d = Armed deadline → deadline ≤ now w →
  exec (TimerFires i) w = Some (set_drains (<[i := onTimeout d]> (drains w)) w).
Proof.
  intros Hq Hd Harmed Hdeadline. cbn. rewrite Hq, Hd, Harmed.
  by destruct (Z.leb_spec deadline (now w)); [|lia].
Qed.

(** A timer is armed once, by [drain]: an armed timer still has the
    deadline it was given. *)
Lemma exec_timer_deadline e w w1 i d deadline :
  exec e w = Some w1 → drains w !! i = Some d →
  (∀ dl, timer d = Armed dl → dl = deadline) →
  ∃ d1, drains w1 !! i = Some d1 ∧
        (∀ dl, timer d1 = Armed dl → dl = deadline).
Proof.
  intros Hexec Hd Hdeadline.
  assert (Hi : (i < List.length (drains w))%nat) by by eapply lookup_lt_Some.
  destruct e as [tp|tmo|j|k outcome|j|ms].
  - exec_cases Hexec. exists d. by rewrite add_drains.
  - exec_cases Hexec. exists d. rewrite drain_spec. cbn.
    by rewrite lookup_app_l.
  - exec_cases Hexec. cbn. destruct (decide (j = i)) as [->|Hne].
    + rewrite Hd in E. injection E as <-. exists (onAllSettled d).
      rewrite list_lookup_insert_eq by done. split; [done|].
      unfold onAllSettled.
      match goal with |- context [resolve ?v ?d0] =>
        destruct (resolve_kept v d0) as (_ & _ & _ & _ & -> & _)
      end.
      cbn. intros dl. by destruct (timer d).
    + exists d. by rewrite list_lookup_insert_ne.
  - exec_cases Hexec. by exists d.
  - exec_cases Hexec. cbn. destruct (decide (j = i)) as [->|Hne].
    + rewrite Hd in E0. injection E0 as <-. exists (onTimeout d).
      rewrite list_lookup_insert_eq by done. split; [done|].
      destruct (onTimeout_kept d) as (_ & _ & _ & _ & -> & _). done.
    + exists d. by rewrite list_lookup_insert_ne.
  - exec_cases Hexec. by exists d.
Qed.

Lemma run_timer_deadline es w w1 i d deadline :
  run es w = Some w1 → drains w !! i = Some d →
  (∀ dl, timer d = Armed dl → dl = deadline) →
  ∃ d1, drains w1 !! i = Some d1 ∧
        (∀ dl, timer d1 = Armed dl → dl = deadline).
Proof.
  revert w d. induction es as [|e rest IH]; intros w d Hrun Hd Hdl;
    cbn in Hrun.
  - injection Hrun as <-. by exists d.
  - destruct (exec e w) as [w2|] eqn:Hexec; [|discriminate].
    destruct (exec_timer_deadline _ _ _ _ _ _ Hexec Hd Hdl) as (d2 & Hd2 & Hdl2).
    by eapply IH.
Qed.

(** The timer of [drain(t)], [t] positive, is due [t] milliseconds after the
    call: if by then a future of the drain is still pending, the timer has
    fired and the promise is [false], or the promise is pending and the
    timer fires as the next macrotask. *)
Lemma drain_timer_due bufferSize w0 t es w d :
  reachable bufferSize w0 → 0 < t →
  run es (fst (drain (Some t) w0)) = Some w →
  drains w !! snd (drain (Some t) w0) = Some d →
  all_settled w d = false → quiescent w = true → now w0 + t ≤ now w →
  promise d = Fulfilled false ∨
  (promise d = Pending ∧
   exec (TimerFires (snd (drain (Some t) w0))) w
   = Some (set_drains
             (<[snd (drain (Some t) w0) := onTimeout d]> (drains w)) w)).
Proof.
  intros Hreach0 Hpos Hrun Hd Hall Hq Hnow.
  assert (Hreach1 : reachable bufferSize (fst (drain (Some t) w0))).
  { by apply (reachable_step _ w0 (CallDrain (Some t))). }
  pose proof (reachable_run _ _ _ _ Hreach1 Hrun) as Hreach.
  pose proof (reachable_drain_ok _ _ _ _ Hreach Hd) as Hok.
  revert Hrun Hd. rewrite drain_spec. cbn [fst snd]. intros Hrun Hd.
  match type of Hrun with run _ ?x = _ => set (w1 := x) in * end.
  set (d0 := mkDrain (pending w0) (Some t) (Armed (now w0 + Z.max 0 t))
                     (seq (List.length (futures w0))
                          (List.length (pending w0))) false Pending).
  assert (Hd0 : drains w1 !! List.length (drains w0) = Some d0).
  { subst w1. cbn. by rewrite lookup_app_r, Nat.sub_diag. }
  destruct (run_drain_stable _ _ _ _ _ Hrun Hd0)
    as (d' & Hd' & _ & Htimeout & _ & _).
  destruct (run_timer_deadline _ _ _ _ _ (now w0 + t) Hrun Hd0)
    as (d'' & Hd'' & Hdeadline).
  { cbn. intros dl [= <-]. lia. }
  simplify_eq. cbn in Htimeout.
  assert (Hreacted : reacted d = false).
  { destruct (reacted d) eqn:Hr; [|done].
    rewrite (ok_reacted_settled _ _ Hok Hr) in Hall. discriminate. }
  destruct (timer d) as [dl| |] eqn:Htimer.
  - right. destruct (armed_pending _ _ _ Hok Htimer) as [_ Hpending].
    split; [done|]. eapply timeout_enabled; try done.
    rewrite (Hdeadline dl eq_refl). lia.
  - left. apply (ok_false_timed_out _ _ Hok). unfold timed_out.
    rewrite Htimer, Htimeout. by apply positive_timeout_true.
  - rewrite (ok_cleared_reacted _ _ Hok Htimer) in Hreacted. discriminate.
Qed.

(** C6: when the timer of a drain with a positive timeout fires while one
    of its futures has not settled, the promise of the drain is fulfilled
    with [false], and keeps that value whatever happens next. The futures
    are left as they are: those that were pending are still pending and can
    still settle, in any way. *)
Theorem drain_timeout_resolves_false bufferSize w i d t w1 :
  reachable bufferSize w → drains w !! i = Some d →
  timeout d = Some t → 0 < t →
  all_settled w d = false →
  exec (TimerFires i) w = Some w1 →
  ∃ d1, drains w1 !! i = Some d1 ∧
        promise d = Pending ∧
        promise d1 = Fulfilled false ∧
        futures w1 = futures w ∧
        (∃ k, k ∈ started d1 ∧ future w1 k = Pending) ∧
        (∀ k outcome,
           futures w1 !! k = Some Pending → is_settled outcome = true →
           exec (Settle k outcome) w1
           = Some (set_futures (<[k := outcome]> (futures w1)) w1)) ∧
        (∀ es w2, run es w1 = Some w2 →
           ∃ d2, drains w2 !! i = Some d2 ∧ promise d2 = Fulfilled false).
Proof.
  intros Hreach Hd Htimeout Hpos Hall Hexec.
  pose proof (reachable_drain_ok _ _ _ _ Hreach Hd) as Hok.
  exec_cases Hexec. simplify_eq.
  destruct (armed_pending _ _ _ Hok E1) as [Hreacted Hpending].
  destruct (onTimeout_kept d) as (_ & _ & Hstarted & Hreacted1 & _ & _).
  assert (Hfalse : promise (onTimeout d) = Fulfilled false).
  { unfold onTimeout, resolve. cbn.
    by rewrite Htimeout, (positive_timeout_true t Hpos), Hpending. }
  assert (Hd1 : <[i := onTimeout d]> (drains w) !! i = Some (onTimeout d)).
  { apply list_lookup_insert_eq. by eapply lookup_lt_Some. }
  assert (Hready : ready w (onTimeout d) = false).
  { rewrite ready_spec. unfold all_settled in *. rewrite Hstarted, Hall.
    apply andb_false_r. }
  exists (onTimeout d). cbn [drains set_drains futures]. split_and!; try done.
  - destruct (all_settled_false _ _ Hall) as (k & Hin & Hk).
    exists k. by rewrite Hstarted.
  - intros k outcome Hk Ho.
    exact (settle_enabled (set_drains (<[i := onTimeout d]> (drains w)) w)
             k outcome (quiescent_insert _ _ _ E Hready) Hk Ho).
  - intros es w2 Hrun.
    destruct (run_drain_stable es _ w2 i (onTimeout d) Hrun Hd1)
      as (d2 & Hd2 & _ & _ & _ & Hp2).
    exists d2. split; [done|]. rewrite Hp2; [done|]. by rewrite Hfalse.
Qed.

Lemma drain_timeout_resolves_false_witness :
  ∃ w w1 w2 d1 d2,
    run [CallAdd "slow"; CallDrain (Some 5); Tick 5] (init None) = Some w ∧
    exec (TimerFires 0) w = Some w1 ∧
    drains w1 !! 0%nat = Some d1 ∧
    promise d1 = Fulfilled false ∧
    futures w1 = [Pending] ∧
    run [Settle 0 (Fulfilled sample_response); Reaction 0] w1 = Some w2 ∧
    drains w2 !! 0%nat = Some d2 ∧
    promise d2 = Fulfilled false.
Proof.
  pose (es := [CallAdd "slow"; CallDrain (Some 5); Tick 5]).
  pose (d := mkDrain ["slow"] (Some 5) (Armed 5) [0%nat] false Pending).
  pose (w := mkWorld (IsolatedPromiseBuffer.mk [] [] 30) ["slow"]
                     [Pending] [d] 5).
  pose (w1 := set_drains (<[0%nat := onTimeout d]> (drains w)) w).
  pose (w2 := mkWorld (IsolatedPromiseBuffer.mk [] [] 30) ["slow"]
                      [Fulfilled sample_response]
                      [mkDrain ["slow"] (Some 5) Fired [0%nat] true
                               (Fulfilled false)] 5).
  assert (Hrun : run es (init None) = Some w) by reflexivity.
  assert (Hrun2 : run [Settle 0 (Fulfilled sample_response); Reaction 0] w1
                  = Some w2) by reflexivity.
  destruct (drain_timeout_resolves_false None w 0 d 5 w1)
    as (d1 & Hd1 & _ & Hp1 & Hf1 & _ & _ & Hlater).
  - exact (reachable_run None es _ _ (reachable_init None) Hrun).
  - reflexivity.
  - reflexivity.
  - lia.
  - reflexivity.
  - reflexivity.
  - destruct (Hlater _ _ Hrun2) as (d2 & Hd2 & Hp2).
    exists w, w1, w2, d1, d2. by split_and!.
Defined.

(** ** [drain]: the order of calls and of completions *)

Lemma waiting_not_ready w d :
  reacted d = true ∨ (∃ k, k ∈ started d ∧ future w k = Pending) →
  ready w d = false.
Proof.
  rewrite ready_spec. intros [->|(k & Hin & Hk)]; [done|].
  rewrite (all_settled_pending _ _ _ Hin Hk). apply andb_false_r.
Qed.

Lemma not_ready_waiting w d :
  ready w d = false →
  reacted d = true ∨ (∃ k, k ∈ started d ∧ future w k = Pending).
Proof.
  rewrite ready_spec. intros Hready.
  apply andb_false_iff in Hready as [Hreacted|Hall].
  - left. by apply negb_false_iff.
  - right. by apply all_settled_false.
Qed.

Lemma future_insert_ne w k k0 outcome :
  k ≠ k0 →
  future (set_futures (<[k := outcome]> (futures w)) w) k0 = future w k0.
Proof. intros Hne. unfold future. cbn. by rewrite list_lookup_insert_ne. Qed.

(** Pending futures settle in any order. The drains that have not reacted
    must each keep a pending future until the last step, so that no
    reaction comes in between. *)
Lemma run_settle_any_order ks :
  ∀ outcomes w,
    NoDup ks → List.length outcomes = List.length ks →
    Forall (fun o => is_settled o = true) outcomes →
    Forall (fun k => futures w !! k = Some Pending) ks →
    Forall (fun d => reacted d = true ∨
                     ∃ k, k ∈ started d ∧ future w k = Pending ∧
                          (k ∉ ks ∨ last ks = Some k)) (drains w) →
    ∃ w1, run (zip_with Settle ks outcomes) w = Some w1 ∧
          drains w1 = drains w ∧
          invoked w1 = invoked w ∧
          (∀ k, k ∉ ks → futures w1 !! k = futures w !! k) ∧
          Forall2 (fun k o => futures w1 !! k = Some o) ks outcomes.
Proof.
  induction ks as [|k ks IH]; intros outcomes w Hnodup Hlen Hos Hks Hwait.
  { destruct outcomes; [|done]. exists w. by split_and!. }
  destruct outcomes as [|o os]; [done|].
  apply NoDup_cons in Hnodup as [Hk_fresh Hnodup].
  apply Forall_cons in Hos as [Ho Hos].
  apply Forall_cons in Hks as [Hk Hks].
  injection Hlen as Hlen.
  assert (Hq : quiescent w = true).
  { apply quiescent_Forall. eapply Forall_impl; [exact Hwait|].
    intros d [Hr|(k0 & Hin & Hp & _)]; apply waiting_not_ready; eauto. }
  pose proof (settle_enabled w k o Hq Hk Ho) as Hexec.
  set (w' := set_futures (<[k := o]> (futures w)) w) in *.
  assert (Hk_set : futures w' !! k = Some o).
  { cbn. apply list_lookup_insert_eq. by eapply lookup_lt_Some. }
  cbn [zip_with run]. rewrite Hexec.
  destruct ks as [|k1 ks1].
  { destruct os; [|done]. exists w'. cbn. split_and!; try done.
    - intros k0 Hk0. apply list_lookup_insert_ne.
      intros ->. apply Hk0. by left.
    - by repeat constructor. }
  destruct (IH os w') as (w1 & Hrun & Hdrains & Hinvoked & Hother & Hset);
    try done.
  - apply Forall_forall. intros k0 Hin. cbn.
    rewrite list_lookup_insert_ne;
      [by apply (proj1 (Forall_forall _ _) Hks)|].
    intros ->. by apply Hk_fresh.
  - eapply Forall_impl; [exact Hwait|].
    intros d [Hr|(k0 & Hin & Hp & Hlast)]; [by left|].
    right. exists k0.
    assert (Hne : k ≠ k0).
    { intros ->. destruct Hlast as [Hnot|Hlast]; [apply Hnot; by left|].
      rewrite last_cons_cons in Hlast. apply last_Some_elem_of in Hlast.
      by apply Hk_fresh. }
    split; [done|].
    split; [subst w'; by rewrite future_insert_ne|].
    destruct Hlast as [Hnot|Hlast].
    + left. intros Hin'. apply Hnot. by right.
    + right. by rewrite last_cons_cons in Hlast.
  - exists w1. split_and!; try done.
    + intros k0 Hk0. rewrite Hother.
      * cbn. apply list_lookup_insert_ne. intros ->. apply Hk0. by left.
      * intros Hin. apply Hk0. by right.
    + constructor; [|done]. by rewrite Hother.
Qed.

(** C9: [drain] calls the detached producers in the order in which they
    were added: the calls it makes are the pending list, appended as it is
    to the record of calls, and the j-th future of the drain is the one
    returned by the j-th producer. All of them have been called when
    [drain] returns although none has completed: no call waits for an
    earlier one. Completion is in no fixed order: from a world without
    pending microtasks the futures of the drain can settle in any order,
    each with any outcome. *)
Theorem drain_invokes_in_order bufferSize w timeout :
  reachable bufferSize w →
  let w1 := fst (drain timeout w) in
  let first := List.length (futures w) in
  invoked w1 = invoked w ++ pending w ∧
  (∃ d, drains w1 !! snd (drain timeout w) = Some d ∧
        oldTaskProducers d = pending w ∧
        started d = seq first (List.length (pending w))) ∧
  (∀ j taskProducer,
     pending w !! j = Some taskProducer →
     invoked w1 !! (first + j)%nat = Some taskProducer ∧
     futures w1 !! (first + j)%nat = Some Pending) ∧
  (quiescent w = true →
   ∀ order outcomes,
     order ≡ₚ seq first (List.length (pending w)) →
     List.length outcomes = List.length order →
     Forall (fun o => is_settled o = true) outcomes →
     ∃ w2, run (zip_with Settle order outcomes) w1 = Some w2 ∧
           invoked w2 = invoked w1 ∧
           Forall2 (fun k o => futures w2 !! k = Some o) order outcomes).
Proof.
  intros Hreach. cbn zeta.
  pose proof (reachable_ok _ _ Hreach) as [_ _ _ Hlog Hdrains].
  set (n := List.length (pending w)).
  assert (Hnew : ∀ k, k ∈ seq (List.length (futures w)) n →
                      futures (fst (drain timeout w)) !! k = Some Pending).
  { intros k Hk. apply elem_of_seq in Hk. rewrite drain_spec. cbn.
    rewrite lookup_app_r by lia. apply lookup_replicate_2. fold n. lia. }
  split_and!.
  - by rewrite drain_spec.
  - rewrite drain_spec. cbn. eexists.
    split; [by rewrite lookup_app_r, Nat.sub_diag|done].
  - intros j tp Hj. pose proof (lookup_lt_Some _ _ _ Hj) as Hlt. split.
    + rewrite drain_spec. cbn. rewrite lookup_app_r by lia.
      rewrite <- Hj. f_equal. lia.
    + apply Hnew, elem_of_seq. fold n. lia.
  - intros Hq order outcomes Hperm Hlen Hos.
    destruct (last order) as [klast|] eqn:Hlast.
    2: { apply last_None in Hlast as ->. destruct outcomes; [|done].
         eexists. split; [reflexivity|]. by split. }
    destruct (run_settle_any_order order outcomes (fst (drain timeout w)))
      as (w2 & Hrun & _ & Hinvoked & _ & Hset); try done.
    + rewrite Hperm. apply NoDup_seq.
    + apply Forall_forall. intros k Hk. apply Hnew. by rewrite <- Hperm.
    + rewrite drain_spec. cbn [drains fst]. apply Forall_app. split.
      * apply Forall_forall. intros d Hd.
        apply list_elem_of_lookup in Hd as [i Hd].
        pose proof (Forall_lookup_1 _ _ _ _ Hdrains Hd) as Hok.
        destruct (not_ready_waiting _ _ (quiescent_lookup _ _ _ Hq Hd))
          as [Hr|(k & Hin & Hk)]; [by left|].
        right. exists k.
        pose proof (proj1 (Forall_forall _ _) (ok_started _ _ Hok) k Hin)
          as Hbound. cbn in Hbound.
        split; [done|]. split.
        -- unfold future at 1. cbn. by rewrite future_app.
        -- left. rewrite Hperm. intros Hk'. apply elem_of_seq in Hk'. lia.
      * constructor; [|constructor]. right. exists klast. cbn.
        pose proof (last_Some_elem_of _ _ Hlast) as Hin.
        rewrite Hperm in Hin. split; [done|]. split; [|by right].
        unfold future. pose proof (Hnew _ Hin) as Hp.
        rewrite drain_spec in Hp. cbn in Hp. cbn. by rewrite Hp.
    + exists w2. by split_and!.
Qed.

Lemma drain_invokes_in_order_witness :
  ∃ w w1 w2,
    run [CallAdd "first"; CallAdd "second"; CallAdd "third"] (init None)
      = Some w ∧
    exec (CallDrain None) w = Some w1 ∧
    invoked w1 = ["first"; "second"; "third"] ∧
    futures w1 = [Pending; Pending; Pending] ∧
    run [Settle 2 (Fulfilled sample_response); Settle 0 sample_failure;
         Settle 1 (Fulfilled sample_response)] w1 = Some w2 ∧
    futures w2 = [sample_failure; Fulfilled sample_response;
                  Fulfilled sample_response].
Proof.
  pose (es := [CallAdd "first"; CallAdd "second"; CallAdd "third"]).
  pose (w := mkWorld (IsolatedPromiseBuffer.mk []
                        ["first"; "second"; "third"] 30) [] [] [] 0).
  assert (Hrun : run es (init None) = Some w) by reflexivity.
  destruct (drain_invokes_in_order None w None)
    as (Hinvoked & _ & _ & Horder).
  - exact (reachable_run None es _ _ (reachable_init None) Hrun).
  - destruct (Horder eq_refl [2; 0; 1]%nat
                [Fulfilled sample_response; sample_failure;
                 Fulfilled sample_response])
      as (w2 & Hrun2 & _ & Hset).
    + cbn. by rewrite (Permutation_swap 0%nat 2%nat [1%nat]),
                      (Permutation_swap 1%nat 2%nat []).
    + reflexivity.
    + by repeat constructor.
    + exists w, (fst (drain None w)), w2.
      split; [exact Hrun|]. split; [reflexivity|].
      split; [exact Hinvoked|]. split; [reflexivity|].
      split; [exact Hrun2|].
      cbn in Hrun2. by injection Hrun2 as <-.
Defined.

(** * Further properties of the buffer *)

(** ** Capacity *)

(** X1: the capacity given to the constructor is never changed, and the
    pending list never holds more producers than it (none, for a capacity
    below zero), whatever the calls and events since the constructor. *)
Theorem pending_never_exceeds_capacity bufferSize es w :
  run es (init bufferSize) = Some w →
  IsolatedPromiseBuffer._bufferSize (buffer w) = capacity bufferSize ∧
  Z.of_nat (List.length (pending w)) ≤ Z.max 0 (capacity bufferSize).
Proof.
  intros Hrun.
  pose proof (reachable_ok _ _
    (reachable_run _ _ _ _ (reachable_init bufferSize) Hrun)) as Hok.
  split; [apply (ok_size _ _ Hok)|apply (ok_bound _ _ Hok)].
Qed.

Lemma pending_never_exceeds_capacity_witness :
  ∃ w, run [CallAdd "first"; CallAdd "second"; CallAdd "third"; CallDrain None;
            CallAdd "fourth"] (init (Some 2)) = Some w ∧
       pending w = ["fourth"] ∧
       Z.of_nat (List.length (pending w)) ≤ 2.
Proof.
  exists (mkWorld (IsolatedPromiseBuffer.mk [] ["fourth"] 2)
            ["first"; "second"] [Pending; Pending]
            [mkDrain ["first"; "second"] None (Armed 0) [0%nat; 1%nat]
                     false Pending]
            0).
  split; [reflexivity|]. split; [reflexivity|].
  apply (pending_never_exceeds_capacity (Some 2)
           [CallAdd "first"; CallAdd "second"; CallAdd "third"; CallDrain None;
            CallAdd "fourth"]).
  reflexivity.
Defined.

Lemma add_all_room_left taskProducers this :
  let room :=
    Z.to_nat (IsolatedPromiseBuffer._bufferSize this
              - Z.of_nat (List.length (IsolatedPromiseBuffer._taskProducers this))) in
  IsolatedPromiseBuffer.add_all taskProducers this
  = ({| IsolatedPromiseBuffer.dollar := IsolatedPromiseBuffer.dollar this;
        IsolatedPromiseBuffer._taskProducers :=
          IsolatedPromiseBuffer._taskProducers this ++ take room taskProducers;
        IsolatedPromiseBuffer._bufferSize :=
          IsolatedPromiseBuffer._bufferSize this |},
     replicate (Nat.min room (List.length taskProducers)) (Fulfilled tt)
     ++ replicate (List.length taskProducers - room)
          (Rejected (SentryError BUFFER_FULL_MESSAGE))).
Proof.
  revert this. induction taskProducers as [|tp rest IH]; intros this; cbn zeta.
  - cbn. rewrite take_nil, app_nil_r, Nat.min_0_r. by destruct this.
  - cbn [IsolatedPromiseBuffer.add_all].
    destruct (Z_lt_ge_dec
                (Z.of_nat (List.length (IsolatedPromiseBuffer._taskProducers this)))
                (IsolatedPromiseBuffer._bufferSize this)) as [Hroom|Hfull].
    + rewrite IsolatedPromiseBuffer_add_room by done. rewrite IH. cbn.
      rewrite length_app. cbn.
      replace (Z.to_nat (IsolatedPromiseBuffer._bufferSize this
                 - Z.of_nat (List.length
                               (IsolatedPromiseBuffer._taskProducers this))))
        with (S (Z.to_nat (IsolatedPromiseBuffer._bufferSize this
                   - Z.of_nat (List.length
                                 (IsolatedPromiseBuffer._taskProducers this)
                               + 1)%nat))) by lia.
      cbn. by rewrite <- app_assoc.
    + rewrite IsolatedPromiseBuffer_add_full by done. rewrite IH.
      replace (Z.to_nat (IsolatedPromiseBuffer._bufferSize this
                 - Z.of_nat (List.length
                               (IsolatedPromiseBuffer._taskProducers this))))
        with 0%nat by lia.
      cbn. by rewrite !take_0, Nat.sub_0_r.
Qed.

(** X2: the buffer that [makeEdgeTransport] creates has the capacity
    [options.bufferSize], 30 when that is absent. It accepts the first
    producers offered to it, as many as its capacity, and rejects every
    later one with the [SentryError] of a full buffer, until [drain] is
    called; with a capacity of zero or less it accepts none at all. *)
Theorem transport_buffer_accepts_capacity options taskProducers :
  let C := Z.to_nat (capacity (EdgeTransportOptions.bufferSize options)) in
  IsolatedPromiseBuffer.add_all taskProducers (snd (makeEdgeTransport options))
  = ({| IsolatedPromiseBuffer.dollar := [];
        IsolatedPromiseBuffer._taskProducers := take C taskProducers;
        IsolatedPromiseBuffer._bufferSize :=
          capacity (EdgeTransportOptions.bufferSize options) |},
     replicate (Nat.min C (List.length taskProducers)) (Fulfilled tt)
     ++ replicate (List.length taskProducers - C)
          (Rejected (SentryError BUFFER_FULL_MESSAGE))).
Proof.
  cbn zeta. unfold makeEdgeTransport. cbn [snd].
  rewrite add_all_room_left. cbn.
  by rewrite Z.sub_0_r.
Qed.

(** ** Every accepted producer is called once *)

Lemma exec_accepted e w w1 :
  exec e w = Some w1 →
  invoked w1 ++ pending w1 = invoked w ++ pending w ++ accepted [e] w.
Proof.
  intros Hexec. cbn [accepted]. rewrite Hexec.
  destruct e as [tp|timeout|i|k outcome|i|ms].
  - exec_cases Hexec. rewrite add_invoked.
    unfold pending, add, IsolatedPromiseBuffer.add.
    destruct (Z.of_nat _ >=? _); cbn; [by rewrite app_nil_r|done].
  - exec_cases Hexec. rewrite drain_spec. cbn. by rewrite !app_nil_r.
  - exec_cases Hexec. cbn. by rewrite app_nil_r.
  - exec_cases Hexec. cbn. by rewrite app_nil_r.
  - exec_cases Hexec. cbn. by rewrite app_nil_r.
  - exec_cases Hexec. cbn. by rewrite app_nil_r.
Qed.

Lemma accepted_cons e rest w w1 :
  exec e w = Some w1 →
  accepted (e :: rest) w = accepted [e] w ++ accepted rest w1.
Proof.
  intros Hexec. cbn [accepted]. rewrite Hexec.
  destruct e; try done. by destruct (is_fulfilled _).
Qed.

(** X3: producers are neither lost, nor called twice, nor reordered. After
    any calls and events, the producers called so far followed by those
    still pending are exactly the producers that [add] accepted, in the
    order in which it accepted them; so a producer that [add] rejected is
    never called, and an accepted one is either still pending or has been
    called, once. *)
Theorem accepted_called_once_in_order es w w1 :
  run es w = Some w1 →
  invoked w1 ++ pending w1 = invoked w ++ pending w ++ accepted es w.
Proof.
  revert w. induction es as [|e rest IH]; intros w Hrun; cbn in Hrun.
  - injection Hrun as <-. cbn. by rewrite app_nil_r.
  - destruct (exec e w) as [w2|] eqn:Hexec; [|discriminate].
    rewrite (accepted_cons _ _ _ _ Hexec), (IH _ Hrun).
    rewrite (app_assoc (invoked w2)), (exec_accepted _ _ _ Hexec).
    by rewrite <- !app_assoc.
Qed.

Lemma accepted_called_once_in_order_witness :
  ∃ w, run [CallAdd "first"; CallAdd "second"; CallAdd "third"; CallDrain None;
            CallAdd "fourth"; CallDrain (Some 10); CallAdd "fifth"]
           (init (Some 2)) = Some w ∧
       invoked w = ["first"; "second"; "fourth"] ∧
       pending w = ["fifth"] ∧
       invoked w ++ pending w = ["first"; "second"; "fourth"; "fifth"].
Proof.
  pose (es := [CallAdd "first"; CallAdd "second"; CallAdd "third";
               CallDrain None; CallAdd "fourth"; CallDrain (Some 10);
               CallAdd "fifth"]).
  pose (w := mkWorld (IsolatedPromiseBuffer.mk [] ["fifth"] 2)
               ["first"; "second"; "fourth"] [Pending; Pending; Pending]
               [mkDrain ["first"; "second"] None (Armed 0) [0%nat; 1%nat]
                        false Pending;
                mkDrain ["fourth"] (Some 10) (Armed 10) [2%nat] false Pending]
               0).
  assert (Hrun : run es (init (Some 2)) = Some w) by reflexivity.
  exists w. split; [exact Hrun|]. split; [reflexivity|]. split; [reflexivity|].
  rewrite (accepted_called_once_in_order es _ _ Hrun). reflexivity.
Defined.

Lemma exec_detached e w w1 :
  exec e w = Some w1 →
  concat (map oldTaskProducers (drains w1))
  = concat (map oldTaskProducers (drains w))
    ++ (if e is CallDrain _ then pending w else []) ∧
  concat (map started (drains w1))
  = concat (map started (drains w))
    ++ (if e is CallDrain _
        then seq (List.length (futures w)) (List.length (pending w)) else []).
Proof.
  intros Hexec.
  assert (Hinsert : ∀ i d d1,
    drains w !! i = Some d →
    oldTaskProducers d1 = oldTaskProducers d → started d1 = started d →
    map oldTaskProducers (<[i := d1]> (drains w)) = map oldTaskProducers (drains w) ∧
    map started (<[i := d1]> (drains w)) = map started (drains w)).
  { intros i d d1 Hd Hold Hst.
    rewrite !list_fmap_insert, Hold, Hst.
    split; apply list_insert_id; by rewrite list_lookup_fmap, Hd. }
  destruct e as [tp|timeout|i|k outcome|i|ms].
  - exec_cases Hexec. by rewrite add_drains, !app_nil_r.
  - exec_cases Hexec. rewrite drain_spec. cbn.
    by rewrite !map_app, !concat_app; cbn; rewrite !app_nil_r.
  - exec_cases Hexec. cbn. rewrite !app_nil_r.
    destruct (onAllSettled_kept d) as (Hold & _ & Hst & _).
    by destruct (Hinsert i d _ E Hold Hst) as [-> ->].
  - exec_cases Hexec. cbn. by rewrite !app_nil_r.
  - exec_cases Hexec. cbn. rewrite !app_nil_r.
    destruct (onTimeout_kept d) as (Hold & _ & Hst & _).
    by destruct (Hinsert i d _ E0 Hold Hst) as [-> ->].
  - exec_cases Hexec. cbn. by rewrite !app_nil_r.
Qed.

Lemma exec_calls e w w1 :
  exec e w = Some w1 →
  invoked w1 = invoked w ++ (if e is CallDrain _ then pending w else []) ∧
  List.length (futures w1)
  = (List.length (futures w)
     + (if e is CallDrain _ then List.length (pending w) else 0))%nat.
Proof.
  intros Hexec. destruct e as [tp|timeout|i|k outcome|i|ms].
  - exec_cases Hexec.
    rewrite add_invoked, add_futures, app_nil_r, Nat.add_0_r. done.
  - exec_cases Hexec. rewrite drain_spec. cbn.
    by rewrite length_app, length_replicate.
  - exec_cases Hexec. cbn. by rewrite app_nil_r, Nat.add_0_r.
  - exec_cases Hexec. cbn. by rewrite app_nil_r, length_insert, Nat.add_0_r.
  - exec_cases Hexec. cbn. by rewrite app_nil_r, Nat.add_0_r.
  - exec_cases Hexec. cbn. by rewrite app_nil_r, Nat.add_0_r.
Qed.

Lemma calls_partition bufferSize es w :
  run es (init bufferSize) = Some w →
  invoked w = concat (map oldTaskProducers (drains w)) ∧
  concat (map started (drains w)) = seq 0 (List.length (futures w)).
Proof.
  intros Hrun.
  pose proof (reachable_run _ _ _ _ (reachable_init bufferSize) Hrun) as Hreach.
  split; clear Hrun es; induction Hreach as [|w e w1 Hreach IH Hexec]; try done.
  - destruct (exec_detached _ _ _ Hexec) as [-> _].
    destruct (exec_calls _ _ _ Hexec) as [-> _]. by rewrite IH.
  - destruct (exec_detached _ _ _ Hexec) as [_ ->].
    destruct (exec_calls _ _ _ Hexec) as [_ ->]. rewrite IH.
    rewrite seq_app. cbn. by destruct e.
Qed.

(** X4: the calls made are the calls of the drains: at any time the record
    of producer calls is the concatenation, drain after drain, of the lists
    each [drain] detached, and the futures that exist are those the drains
    wait for, each future for one drain. A drain never calls, nor waits for,
    a producer detached by another drain. *)
Theorem calls_belong_to_one_drain bufferSize es w :
  run es (init bufferSize) = Some w →
  invoked w = concat (map oldTaskProducers (drains w)) ∧
  concat (map started (drains w)) = seq 0 (List.length (futures w)) ∧
  List.length (invoked w) = List.length (futures w).
Proof.
  intros Hrun. destruct (calls_partition _ _ _ Hrun) as [Hinvoked Hstarted].
  split_and!; try done.
  apply (ok_log bufferSize), reachable_ok.
  by eapply reachable_run; [apply reachable_init|].
Qed.

Lemma calls_belong_to_one_drain_witness :
  ∃ w, run [CallAdd "first"; CallAdd "second"; CallDrain None;
            CallAdd "third"; CallDrain (Some 10)] (init None) = Some w ∧
       map oldTaskProducers (drains w) = [["first"; "second"]; ["third"]] ∧
       map started (drains w) = [[0; 1]; [2]]%nat ∧
       invoked w = ["first"; "second"; "third"].
Proof.
  pose (es := [CallAdd "first"; CallAdd "second"; CallDrain None;
               CallAdd "third"; CallDrain (Some 10)]).
  pose (w := mkWorld (IsolatedPromiseBuffer.mk [] [] 30)
               ["first"; "second"; "third"] [Pending; Pending; Pending]
               [mkDrain ["first"; "second"] None (Armed 0) [0%nat; 1%nat]
                        false Pending;
                mkDrain ["third"] (Some 10) (Armed 10) [2%nat] false Pending]
               0).
  assert (Hrun : run es (init None) = Some w) by reflexivity.
  exists w. split; [exact Hrun|]. split; [reflexivity|]. split; [reflexivity|].
  destruct (calls_belong_to_one_drain None es w Hrun) as (-> & _ & _).
  reflexivity.
Defined.

(** ** [drain] on an empty buffer *)

Lemma quiescent_app_ready w ds d :
  drains w = ds ++ [d] → ready w d = true → quiescent w = false.
Proof.
  intros Hds Hready. unfold quiescent. rewrite Hds, forallb_app. cbn.
  rewrite Hready. cbn. apply andb_false_r.
Qed.

(** X5: [drain] on a buffer without pending producers calls nothing and
    its promise is fulfilled with [true] by the reaction, which is pending
    as soon as [drain] returns: neither the timer nor any other macrotask
    can run before it, so the answer is [true] whatever the timeout. *)
Theorem drain_of_empty_buffer_resolves_true w timeout :
  pending w = [] →
  let w1 := fst (drain timeout w) in
  let i := snd (drain timeout w) in
  invoked w1 = invoked w ∧
  futures w1 = futures w ∧
  exec (TimerFires i) w1 = None ∧
  (∀ ms, exec (Tick ms) w1 = None) ∧
  (∀ k outcome, exec (Settle k outcome) w1 = None) ∧
  ∃ w2 d2, exec (Reaction i) w1 = Some w2 ∧
           drains w2 !! i = Some d2 ∧
           promise d2 = Fulfilled true ∧
           timer d2 = Cleared.
Proof.
  intros Hempty. cbn zeta. rewrite drain_spec. cbn [fst snd].
  rewrite Hempty. cbn [List.length seq replicate].
  set (d := mkDrain [] timeout (Armed (now w + Z.max 0 (default 0 timeout)))
                    [] false Pending).
  match goal with |- context [exec _ ?x] => set (w1 := x) end.
  assert (Hd : drains w1 !! List.length (drains w) = Some d).
  { subst w1. cbn. by rewrite lookup_app_r, Nat.sub_diag. }
  assert (Hq : quiescent w1 = false).
  { by apply (quiescent_app_ready w1 (drains w) d). }
  split_and!.
  - subst w1. cbn. by rewrite app_nil_r.
  - subst w1. cbn. by rewrite app_nil_r.
  - cbn [exec]. by rewrite Hq.
  - intros ms. cbn [exec]. by rewrite Hq.
  - intros k outcome. cbn [exec]. by rewrite Hq.
  - eexists _, (onAllSettled d). split_and!.
    + cbn [exec]. rewrite Hd. reflexivity.
    + cbn. apply list_lookup_insert_eq. by eapply lookup_lt_Some.
    + reflexivity.
    + reflexivity.
Qed.

Lemma drain_of_empty_buffer_resolves_true_witness :
  ∃ w2 d2,
    run [CallDrain (Some 1); Reaction 0] (init None) = Some w2 ∧
    drains w2 !! 0%nat = Some d2 ∧
    promise d2 = Fulfilled true ∧
    run [CallDrain (Some 1); Tick 1] (init None) = None.
Proof.
  destruct (drain_of_empty_buffer_resolves_true (init None) (Some 1) eq_refl)
    as (_ & _ & _ & Htick & _ & w2 & d2 & Hexec & Hd2 & Hp2 & _).
  exists w2, d2. split; [exact Hexec|]. split; [exact Hd2|].
  split; [exact Hp2|]. exact (Htick 1).
Defined.

(** ** The callbacks of a drain *)

Lemma exec_callbacks_stable e w w1 i d :
  exec e w = Some w1 → drains w !! i = Some d →
  ∃ d1, drains w1 !! i = Some d1 ∧
        (reacted d = true → reacted d1 = true) ∧
        (timer d = Fired → timer d1 = Fired).
Proof.
  intros Hexec Hd.
  assert (Hi : (i < List.length (drains w))%nat) by by eapply lookup_lt_Some.
  destruct e as [tp|tmo|j|k outcome|j|ms].
  - exec_cases Hexec. exists d. by rewrite add_drains.
  - exec_cases Hexec. exists d. rewrite drain_spec. cbn.
    by rewrite lookup_app_l.
  - exec_cases Hexec. cbn. destruct (decide (j = i)) as [->|Hne].
    + rewrite Hd in E. injection E as <-. exists (onAllSettled d).
      rewrite list_lookup_insert_eq by done.
      destruct (onAllSettled_kept d) as (_ & _ & _ & -> & _).
      split_and!; try done. intros Hfired. unfold onAllSettled.
      match goal with |- context [resolve ?v ?d0] =>
        destruct (resolve_kept v d0) as (_ & _ & _ & _ & -> & _)
      end.
      cbn. by rewrite Hfired.
    + exists d. by rewrite list_lookup_insert_ne.
  - exec_cases Hexec. by exists d.
  - exec_cases Hexec. cbn. destruct (decide (j = i)) as [->|Hne].
    + rewrite Hd in E0. injection E0 as <-. exists (onTimeout d).
      rewrite list_lookup_insert_eq by done.
      destruct (onTimeout_kept d) as (_ & _ & _ & -> & -> & _). done.
    + exists d. by rewrite list_lookup_insert_ne.
  - exec_cases Hexec. by exists d.
Qed.

Lemma run_callbacks_stable es w w1 i d :
  run es w = Some w1 → drains w !! i = Some d →
  ∃ d1, drains w1 !! i = Some d1 ∧
        (reacted d = true → reacted d1 = true) ∧
        (timer d = Fired → timer d1 = Fired).
Proof.
  revert w d. induction es as [|e rest IH]; intros w d Hrun Hd; cbn in Hrun.
  - injection Hrun as <-. by exists d.
  - destruct (exec e w) as [w2|] eqn:Hexec; [|discriminate].
    destruct (exec_callbacks_stable _ _ _ _ _ Hexec Hd) as (d2 & Hd2 & Hr2 & Hf2).
    destruct (IH _ _ Hrun Hd2) as (d1 & Hd1 & Hr1 & Hf1).
    exists d1. split_and!; auto.
Qed.

(** X6: each callback of a drain runs at most once. After the reaction on
    [Promise.all] has run, it never runs again and, the timer being cleared,
    the timer callback never runs either; after the timer callback has run,
    it never runs again. *)
Theorem drain_callbacks_run_once bufferSize w i w1 es w2 :
  reachable bufferSize w → run es w1 = Some w2 →
  (exec (Reaction i) w = Some w1 →
   exec (Reaction i) w2 = None ∧ exec (TimerFires i) w2 = None) ∧
  (exec (TimerFires i) w = Some w1 → exec (TimerFires i) w2 = None).
Proof.
  intros Hreach Hrun. split; intros Hexec.
  - assert (Hreach2 : reachable bufferSize w2).
    { eapply reachable_run; [|exact Hrun]. by eapply reachable_step. }
    assert (∃ d1, drains w1 !! i = Some d1 ∧ reacted d1 = true)
      as (d1 & Hd1 & Hr1).
    { exec_cases Hexec. exists (onAllSettled d). cbn. split.
      - apply list_lookup_insert_eq. by eapply lookup_lt_Some.
      - by destruct (onAllSettled_kept d) as (_ & _ & _ & -> & _). }
    destruct (run_callbacks_stable _ _ _ _ _ Hrun Hd1) as (d2 & Hd2 & Hr2 & _).
    specialize (Hr2 Hr1).
    pose proof (reachable_drain_ok _ _ _ _ Hreach2 Hd2) as Hok.
    split; cbn [exec]; rewrite Hd2.
    + by rewrite ready_spec, Hr2.
    + destruct (quiescent w2); [|done].
      destruct (timer d2) as [deadline| |] eqn:Htimer; try done.
      by destruct (ok_reacted_timer _ _ Hok Hr2 deadline).
  - assert (∃ d1, drains w1 !! i = Some d1 ∧ timer d1 = Fired)
      as (d1 & Hd1 & Hf1).
    { exec_cases Hexec. exists (onTimeout d). cbn. split.
      - apply list_lookup_insert_eq. by eapply lookup_lt_Some.
      - by destruct (onTimeout_kept d) as (_ & _ & _ & _ & -> & _). }
    destruct (run_callbacks_stable _ _ _ _ _ Hrun Hd1) as (d2 & Hd2 & _ & Hf2).
    cbn [exec]. rewrite Hd2, (Hf2 Hf1). by destruct (quiescent w2).
Qed.

Lemma drain_callbacks_run_once_witness :
  ∃ w w1 w2,
    run [CallAdd "first"; CallDrain (Some 5); Settle 0 sample_failure]
        (init None) = Some w ∧
    exec (Reaction 0) w = Some w1 ∧
    run [Tick 10] w1 = Some w2 ∧
    exec (TimerFires 0) w2 = None.
Proof.
  pose (es := [CallAdd "first"; CallDrain (Some 5); Settle 0 sample_failure]).
  pose (w := mkWorld (IsolatedPromiseBuffer.mk [] [] 30) ["first"]
               [sample_failure]
               [mkDrain ["first"] (Some 5) (Armed 5) [0%nat] false Pending] 0).
  pose (w1 := mkWorld (IsolatedPromiseBuffer.mk [] [] 30) ["first"]
                [sample_failure]
                [mkDrain ["first"] (Some 5) Cleared [0%nat] true
                         (Fulfilled true)] 0).
  pose (w2 := set_now 10 w1).
  assert (Hrun : run es (init None) = Some w) by reflexivity.
  assert (Hexec : exec (Reaction 0) w = Some w1) by reflexivity.
  assert (Hrun2 : run [Tick 10] w1 = Some w2) by reflexivity.
  exists w, w1, w2. split; [exact Hrun|]. split; [exact Hexec|].
  split; [exact Hrun2|].
  destruct (drain_callbacks_run_once None w 0 w1 [Tick 10] w2) as [Hreaction _].
  - exact (reachable_run None es _ _ (reachable_init None) Hrun).
  - exact Hrun2.
  - exact (proj2 (Hreaction Hexec)).
Defined.

(** ** [drain] with a timeout that has not elapsed *)






(** ** The answer of a drain is final *)

(** X8: the answer of a drain is final. Once the promise returned by
    [drain] is fulfilled, no later call or event changes its value,
    although [resolve] may be called a second time; and a drain keeps the
    producers it detached, its futures and its timeout for good. *)
Theorem drain_answer_is_final es w w1 i d answer :
  run es w = Some w1 → drains w !! i = Some d →
  promise d = Fulfilled answer →
  ∃ d1, drains w1 !! i = Some d1 ∧
        promise d1 = Fulfilled answer ∧
        oldTaskProducers d1 = oldTaskProducers d ∧
        started d1 = started d ∧
        timeout d1 = timeout d.
Proof.
  intros Hrun Hd Hanswer.
  destruct (run_drain_stable _ _ _ _ _ Hrun Hd)
    as (d1 & Hd1 & Hold & Htimeout & Hstarted & Hp).
  exists d1. split_and!; try done.
  rewrite Hp; [done|]. by rewrite Hanswer.
Qed.

Lemma drain_answer_is_final_witness :
  ∃ w w1 d d1,
    run [CallAdd "first"; CallDrain None; Settle 0 sample_failure; Reaction 0]
        (init None) = Some w ∧
    drains w !! 0%nat = Some d ∧ promise d = Fulfilled true ∧
    run [Tick 1; CallAdd "second"; CallDrain (Some 3); Tick 3; TimerFires 1]
        w = Some w1 ∧
    drains w1 !! 0%nat = Some d1 ∧ promise d1 = Fulfilled true.
Proof.
  pose (d := mkDrain ["first"] None Cleared [0%nat] true (Fulfilled true)).
  pose (w := mkWorld (IsolatedPromiseBuffer.mk [] [] 30) ["first"]
               [sample_failure] [d] 0).
  pose (es := [Tick 1; CallAdd "second"; CallDrain (Some 3); Tick 3;
               TimerFires 1]).
  pose (w1 := mkWorld (IsolatedPromiseBuffer.mk [] [] 30) ["first"; "second"]
                [sample_failure; Pending]
                [d; mkDrain ["second"] (Some 3) Fired [1%nat] false
                            (Fulfilled false)] 4).
  assert (Hrun : run es w = Some w1) by reflexivity.
  destruct (drain_answer_is_final es w w1 0 d true Hrun eq_refl eq_refl)
    as (d1 & Hd1 & Hp1 & _).
  exists w, w1, d, d1. by split_and!.
Defined.

(** ** The fields of the request *)

(** X9: the overlay can replace the fields of the request but cannot
    remove one: the object handed to [fetch] has the properties [body],
    [method], [referrerPolicy] and [headers] and those of
    [options.fetchOptions], no other; without [fetchOptions] it is the
    object [{body, method: 'POST', referrerPolicy: 'origin', headers}],
    where [headers] is [undefined] if the options have none. *)
Theorem request_init_fields options request :
  dom (requestOptions options request)
  = dom (default ∅ (EdgeTransportOptions.fetchOptions options))
    ∪ ({["body"; "method"; "referrerPolicy"; "headers"]} : gset string) ∧
  (EdgeTransportOptions.fetchOptions options = None →
   requestOptions options request = requestDefaults options request ∧
   requestOptions options request !! "headers"
   = Some (Js.of_optional (EdgeTransportOptions.headers options))).
Proof.
  unfold requestOptions, Js.spread.
  destruct (EdgeTransportOptions.fetchOptions options) as [F|]; cbn.
  - split; [|done]. by rewrite dom_union_L, requestDefaults_dom.
  - split; [|done]. rewrite dom_empty_L, requestDefaults_dom.
    by rewrite (left_id_L ∅ (∪)).
Qed.

Lemma request_init_fields_witness :
  let options := EdgeTransportOptions.mk "https://sentry.example/" None None None in
  requestOptions options (TransportRequest.mk "envelope") !! "headers"
  = Some Js.Undefined.
Proof.
  intros options.
  destruct (request_init_fields options (TransportRequest.mk "envelope"))
    as [_ Hdefaults].
  destruct (Hdefaults eq_refl) as [_ Hheaders]. exact Hheaders.
Defined.

(** ** Drains in flight *)

Lemma concat_NoDup_disjoint {A} (ls : list (list A)) i j a b x :
  NoDup (concat ls) → ls !! i = Some a → ls !! j = Some b → i ≠ j →
  x ∈ a → x ∉ b.
Proof.
  revert i j. induction ls as [|l ls IH]; intros i j Hnodup Hi Hj Hne Ha Hb;
    [done|].
  cbn in Hnodup. apply NoDup_app in Hnodup as (_ & Hdisjoint & Hrest).
  assert (Hin : ∀ n c, ls !! n = Some c → x ∈ c → x ∈ concat ls).
  { intros n c Hn Hc. apply list_elem_of_In, in_concat. exists c.
    split; apply list_elem_of_In; [|done]. by eapply list_elem_of_lookup_2. }
  destruct i as [|i], j as [|j]; cbn in Hi, Hj; simplify_eq.
  - by apply (Hdisjoint x Ha), (Hin j b).
  - by apply (Hdisjoint x Hb), (Hin i a).
  - apply (IH i j); auto.
Qed.

(** X10: drains in flight do not touch each other. Each future belongs to
    one drain, so when the network settles a future of one drain, every
    other drain is left as it was, with the same futures settled and its
    reaction no nearer; and the callbacks of one drain change that drain
    alone. *)
Theorem drains_in_flight_are_independent bufferSize es w i j di dj :
  run es (init bufferSize) = Some w →
  drains w !! i = Some di → drains w !! j = Some dj → i ≠ j →
  (∀ k, k ∈ started di → k ∉ started dj) ∧
  (∀ k outcome w1,
     k ∈ started di → exec (Settle k outcome) w = Some w1 →
     drains w1 !! j = Some dj ∧
     all_settled w1 dj = all_settled w dj ∧
     ready w1 dj = ready w dj) ∧
  (∀ e w1, e = Reaction i ∨ e = TimerFires i → exec e w = Some w1 →
     drains w1 !! j = Some dj ∧ futures w1 = futures w ∧
     buffer w1 = buffer w).
Proof.
  intros Hrun Hi Hj Hne.
  destruct (calls_partition bufferSize es w Hrun) as [_ Hstarted].
  assert (Hdisjoint : ∀ k, k ∈ started di → k ∉ started dj).
  { intros k. apply (concat_NoDup_disjoint (map started (drains w)) i j).
    - rewrite Hstarted. apply NoDup_seq.
    - by rewrite list_lookup_fmap, Hi.
    - by rewrite list_lookup_fmap, Hj.
    - done. }
  split_and!; [done| |].
  - intros k outcome w1 Hk Hexec. exec_cases Hexec.
    assert (Hall : all_settled (set_futures (<[k := outcome]> (futures w)) w) dj
                   = all_settled w dj).
    { unfold all_settled.
      assert (Hks : ∀ k', k' ∈ started dj → k ≠ k').
      { intros k' Hk' ->. by apply (Hdisjoint k'). }
      clear Hdisjoint Hj.
      induction (started dj) as [|k' ks IH]; [done|]. cbn [forallb].
      rewrite future_insert_ne by (apply Hks; by left).
      rewrite IH; [done|]. intros k'' Hk''. apply Hks. by right. }
    split; [done|]. split; [done|]. by rewrite !ready_spec, Hall.
  - intros e w1 [-> | ->] Hexec; exec_cases Hexec; cbn;
      by rewrite list_lookup_insert_ne.
Qed.

Lemma drains_in_flight_are_independent_witness :
  ∃ w w1 dj,
    run [CallAdd "first"; CallDrain None; CallAdd "second"; CallDrain (Some 10)]
        (init None) = Some w ∧
    exec (Settle 0 sample_failure) w = Some w1 ∧
    drains w1 !! 1%nat = Some dj ∧
    all_settled w1 dj = false.
Proof.
  pose (es := [CallAdd "first"; CallDrain None; CallAdd "second";
               CallDrain (Some 10)]).
  pose (di := mkDrain ["first"] None (Armed 0) [0%nat] false Pending).
  pose (dj := mkDrain ["second"] (Some 10) (Armed 10) [1%nat] false Pending).
  pose (w := mkWorld (IsolatedPromiseBuffer.mk [] [] 30) ["first"; "second"]
               [Pending; Pending] [di; dj] 0).
  pose (w1 := set_futures (<[0%nat := sample_failure]> (futures w)) w).
  assert (Hrun : run es (init None) = Some w) by reflexivity.
  destruct (drains_in_flight_are_independent None es w 0 1 di dj Hrun
              eq_refl eq_refl) as (_ & Hsettle & _); [done|].
  destruct (Hsettle 0%nat sample_failure w1) as (Hdj & Hall & _).
  - by left.
  - reflexivity.
  - exists w, w1, dj. split; [exact Hrun|]. split; [reflexivity|].
    split; [exact Hdj|]. by rewrite Hall.
Defined.

(** X11: the state of the promise returned by [drain] is told by its two
    callbacks: it is pending until one of them resolves it, [false] once
    the timer callback of a positive timeout has run, and [true] once the
    reaction on [Promise.all] has run without that; it is never rejected. *)
Theorem drain_promise_state bufferSize es w i d :
  run es (init bufferSize) = Some w → drains w !! i = Some d →
  promise d =
    if timed_out d then Fulfilled false
    else if reacted d then Fulfilled true
    else Pending.
Proof.
  intros Hrun Hd.
  pose proof (reachable_drain_ok _ _ _ _
    (reachable_run _ _ _ _ (reachable_init bufferSize) Hrun) Hd)
    as [_ Hrej _ Hresolved Htrue Hfalse _ _].
  destruct (promise d) as [|[|]|e] eqn:Hp.
  - destruct Hfalse as [_ Hback].
    destruct (timed_out d); [by specialize (Hback eq_refl)|].
    destruct (reacted d); [by destruct (Hresolved eq_refl)|done].
  - destruct Hfalse as [_ Hback].
    destruct (timed_out d); [by specialize (Hback eq_refl)|].
    by rewrite (Htrue eq_refl).
  - destruct Hfalse as [Hfalse _]. by rewrite (Hfalse eq_refl).
  - by destruct (Hrej e).
Qed.

Lemma drain_promise_state_witness :
  ∃ w d,
    run [CallAdd "slow"; CallDrain (Some 5); Tick 5; TimerFires 0]
        (init None) = Some w ∧
    drains w !! 0%nat = Some d ∧
    promise d = Fulfilled false.
Proof.
  pose (es := [CallAdd "slow"; CallDrain (Some 5); Tick 5; TimerFires 0]).
  pose (d := mkDrain ["slow"] (Some 5) Fired [0%nat] false (Fulfilled false)).
  pose (w := mkWorld (IsolatedPromiseBuffer.mk [] [] 30) ["slow"] [Pending]
               [d] 5).
  assert (Hrun : run es (init None) = Some w) by reflexivity.
  exists w, d. split; [exact Hrun|]. split; [reflexivity|].
  by rewrite (drain_promise_state None es w 0 d Hrun eq_refl).
Defined.

(** * [createRelease] *)

Section CreateReleaseProperties.
Import CreateRelease.

(** Runs the script by cases on what the outside answers. *)
Ltac run_script :=
  unfold createRelease, chooseRelease, try_catch, console_warn, console_error,
    perform, throw;
  unfold mbind, M_bind, mret, M_ret;
  repeat (cbn [app negb fst snd];
          match goal with
          | H : ?x = _ |- context [match ?x with _ => _ end] => rewrite H
          | H : ?x = _ |- context [if ?x then _ else _] => rewrite H
          | H : ?x = _ |- context [if negb ?x then _ else _] => rewrite H
          | H : default _ _ = _ |- _ => rewrite H
          | |- context [match ?x with _ => _ end] =>
              lazymatch x with
              | context [match _ with _ => _ end] => fail
              | _ => destruct x eqn:?
              end
          | |- context [if ?x then _ else _] =>
              lazymatch x with
              | context [if _ then _ else _] => fail
              | context [match _ with _ => _ end] => fail
              | _ => destruct x eqn:?
              end
          end).

Lemma truthy_string_Some v :
  truthy_string v = true → ∃ s, v = Some s ∧ default "" v = s.
Proof. destruct v as [s|]; [by exists s|done]. Qed.

(** X12: the script calls the outside in one fixed order and each call at
    most once: [proposeVersion] (only when [argv.release] is missing or
    empty), [releases.new], [uploadSourceMaps], [finalize],
    [deleteSourcemaps]. Whatever the outside answers, the calls made are a
    beginning of that sequence; they all name the same release, which is
    [argv.release] when it is given and the proposed version otherwise, and
    the upload gets the URL prefix, the build path as its only include and
    [useArtifactBundle] set unless [argv.disableDebugIds] is. *)
Theorem createRelease_calls_in_order sentry argv URL_PREFIX BUILD_PATH :
  let log := fst (createRelease sentry argv URL_PREFIX BUILD_PATH []) in
  ∃ r,
    calls log `prefix_of`
      ((if truthy_string (release argv) then [] else [ProposeVersion]) ++
       [ReleasesNew r;
        UploadSourceMaps r
          {| urlPrefix := URL_PREFIX; include := [BUILD_PATH];
             useArtifactBundle :=
               negb (truthy_bool (disableDebugIds argv)) |};
        Finalize r;
        DeleteSourcemaps BUILD_PATH]) ∧
    (truthy_string (release argv) = true → release argv = Some r) ∧
    (∀ v, truthy_string (release argv) = false →
          proposeVersion sentry = inr v → r = v).
Proof.
  cbn zeta. unfold uploadOptions.
  destruct (truthy_string (release argv)) eqn:Htruthy.
  - destruct (truthy_string_Some _ Htruthy) as (s & Hs & Hdefault).
    exists s. split; [|by split].
    run_script; rewrite ?Hdefault; cbn; by eexists.
  - destruct (proposeVersion sentry) as [e|v] eqn:Hpropose.
    + exists "". split; [|by split]. run_script; cbn; by eexists.
    + exists v. split; [|split; [done|by intros ? _ [= <-]]].
      run_script; cbn; by eexists.
Qed.

(** Settles an equivalence between an outcome of the script and the
    answers of the outside, once the script has been run. *)
Ltac settle_outcome :=
  repeat match goal with u : unit |- _ => destruct u end;
  split; intros Hgoal;
  try discriminate Hgoal;
  try (injection Hgoal as ->);
  first
    [ by (eexists; split; [left; split; reflexivity|]; eauto 10)
    | by (eexists; split; [right; split; reflexivity|]; eauto 10)
    | by (right; eexists; split; [left; split; reflexivity|]; eauto 10)
    | by (right; eexists; split; [right; split; reflexivity|]; eauto 10)
    | by (left; split; reflexivity)
    | repeat match goal with
             | H : _ ∧ _ |- _ => destruct H
             | H : _ ∨ _ |- _ => destruct H
             | H : ∃ _, _ |- _ => destruct H
             end;
      simplify_eq; congruence ].

(** X13: the script succeeds exactly when the release is known
    ([argv.release] given, or the proposal succeeds) and [releases.new],
    [uploadSourceMaps] and [finalize] all succeed for it; what
    [deleteSourcemaps] does has no part in it. When the script fails it
    fails with the error of the first of these steps that failed. *)
Theorem createRelease_outcome sentry argv URL_PREFIX BUILD_PATH :
  let result := snd (createRelease sentry argv URL_PREFIX BUILD_PATH []) in
  let options := uploadOptions argv URL_PREFIX BUILD_PATH in
  let chosen r :=
    (truthy_string (release argv) = true ∧ release argv = Some r) ∨
    (truthy_string (release argv) = false ∧ proposeVersion sentry = inr r) in
  (result = inr tt ↔
   ∃ r, chosen r ∧
        releasesNew sentry r = inr tt ∧
        uploadSourceMaps sentry r options = inr tt ∧
        finalize sentry r = inr tt) ∧
  (∀ e, result = inl e ↔
     (truthy_string (release argv) = false ∧ proposeVersion sentry = inl e) ∨
     ∃ r, chosen r ∧
          (releasesNew sentry r = inl e ∨
           (releasesNew sentry r = inr tt ∧
            (uploadSourceMaps sentry r options = inl e ∨
             (uploadSourceMaps sentry r options = inr tt ∧
              finalize sentry r = inl e))))).
Proof.
  cbn zeta.
  destruct (truthy_string (release argv)) eqn:Htruthy.
  - destruct (truthy_string_Some _ Htruthy) as (s & Hs & Hdefault).
    rewrite Hs.
    split; [|intros e]; run_script; cbn [fst snd]; settle_outcome.
  - split; [|intros e]; run_script; cbn [fst snd]; settle_outcome.
Qed.

Lemma createRelease_calls_in_order_witness :
  let sentry :=
    mkOutside (inr "abc123") (fun _ => inr tt) (fun _ _ => inl "401")
              (fun _ => inr tt) (fun _ => inr tt) in
  let argv := mkArgv (Some "1.0.0") None (Some true) in
  calls (fst (createRelease sentry argv "~/build/" "public/build" []))
  = [ReleasesNew "1.0.0";
     UploadSourceMaps "1.0.0" (mkUploadOptions "~/build/" ["public/build"] true)].
Proof.
  intros sentry argv.
  destruct (createRelease_calls_in_order sentry argv "~/build/" "public/build")
    as (r & _ & Hrelease & _).
  specialize (Hrelease eq_refl). injection Hrelease as <-. reflexivity.
Defined.

Lemma createRelease_outcome_witness :
  let sentry :=
    mkOutside (inr "abc123") (fun _ => inr tt) (fun _ _ => inr tt)
              (fun _ => inr tt) (fun _ => inl "EACCES") in
  let argv := mkArgv None None (Some true) in
  snd (createRelease sentry argv "~/build/" "public/build" []) = inr tt.
Proof.
  intros sentry argv.
  apply (createRelease_outcome sentry argv "~/build/" "public/build").
  exists "abc123". split; [right; split; reflexivity|].
  split; [reflexivity|]. split; reflexivity.
Defined.

(** X14: without [argv.release] (missing or empty), a failure to propose a
    version ends the script: it logs its three warnings and fails with the
    error of the proposal, and no release is created, nothing is uploaded,
    finalized or deleted. *)
Theorem createRelease_proposal_failure sentry argv URL_PREFIX BUILD_PATH error :
  truthy_string (release argv) = false →
  proposeVersion sentry = inl error →
  createRelease sentry argv URL_PREFIX BUILD_PATH []
  = ([ProposeVersion;
      ConsoleWarn "[sentry] Failed to propose a release version.";
      ConsoleWarn
        "[sentry] You can specify a release version with `--release` flag.";
      ConsoleWarn
        "[sentry] For example: `sentry-upload-sourcemaps --release 1.0.0`"],
     inl error).
Proof. intros Htruthy Hpropose. by run_script. Qed.

Lemma createRelease_proposal_failure_witness :
  let sentry :=
    mkOutside (inl "not a git repository") (fun _ => inr tt)
              (fun _ _ => inr tt) (fun _ => inr tt) (fun _ => inr tt) in
  snd (createRelease sentry (mkArgv (Some "") None (Some true))
                     "~/build/" "public/build" [])
  = inl "not a git repository".
Proof.
  intros sentry.
  by rewrite (createRelease_proposal_failure sentry _ _ _ "not a git repository").
Defined.

(** X15: [deleteSourcemaps] is called only with the build path, and exactly
    when [argv.deleteAfterUpload] is set and the release has been created,
    uploaded and finalized; its failure does not fail the script, which
    then logs a warning that names the build path and logs the error; the
    script logs an error in no other case. *)
Theorem createRelease_deletion sentry argv URL_PREFIX BUILD_PATH :
  let log := fst (createRelease sentry argv URL_PREFIX BUILD_PATH []) in
  let result := snd (createRelease sentry argv URL_PREFIX BUILD_PATH []) in
  (∀ path, DeleteSourcemaps path ∈ log ↔
     path = BUILD_PATH ∧ result = inr tt ∧
     truthy_bool (deleteAfterUpload argv) = true) ∧
  (∀ e, ConsoleError e ∈ log ↔
     DeleteSourcemaps BUILD_PATH ∈ log ∧
     deleteSourcemaps sentry BUILD_PATH = inl e) ∧
  (∀ e, ConsoleError e ∈ log →
     ConsoleWarn
       ("[sentry] Failed to delete sourcemaps in build directory: "
        +:+ BUILD_PATH) ∈ log).
Proof.
  cbn zeta. split_and!; intros x; run_script; cbn [fst snd];
    repeat match goal with u : unit |- _ => destruct u end;
    rewrite ?elem_of_cons, ?elem_of_nil;
    (split || idtac); intros Hgoal;
    repeat match goal with
           | H : _ ∧ _ |- _ => destruct H
           | H : _ ∨ _ |- _ => destruct H
           | H : False |- _ => destruct H
           end;
    simplify_eq; try done;
    first [ by split_and!
          | by repeat first [by left | right]
          | by (split; [repeat first [by left | right]|]) ].
Qed.

Lemma createRelease_deletion_witness :
  let sentry :=
    mkOutside (inr "abc123") (fun _ => inr tt) (fun _ _ => inr tt)
              (fun _ => inr tt) (fun _ => inl "EACCES") in
  let argv := mkArgv (Some "1.0.0") (Some true) (Some true) in
  let log := fst (createRelease sentry argv "~/build/" "public/build" []) in
  ConsoleError "EACCES" ∈ log ∧
  ConsoleWarn
    "[sentry] Failed to delete sourcemaps in build directory: public/build"
    ∈ log.
Proof.
  intros sentry argv log.
  destruct (createRelease_deletion sentry argv "~/build/" "public/build")
    as (Hdelete & Herror & Hwarn).
  assert (Hlogged : ConsoleError "EACCES" ∈ log).
  { apply Herror. split; [|reflexivity]. apply Hdelete. by split_and!. }
  split; [exact Hlogged|]. exact (Hwarn _ Hlogged).
Defined.

End CreateReleaseProperties.
